(** * HarmonicOscillatorEnergyAnalysis: timeline, overlay stack and physical model

    A shallow embedding of [src/Tutoring/solution.py], the narrated
    spring-and-mass animation, and the properties its specification states
    about it.

    Conventions of the embedding.
    - Python floats that only take part in additions, comparisons and
      [min]/[max] (durations, clock time, overlay coordinates) are exact
      rationals [Q]; results are compared with [==].
    - Python floats that go through [np.cos], [np.sin] or [np.linalg.norm]
      (the physical model and the redraw functions) are real numbers [R].
      The clock is rational and is injected with [Q2R] where a redraw
      function reads it. Rounding is not modelled.
    - A Python [str] is a list of Unicode code points.
    - Mobjects are heap objects named by an identifier, because the overlay
      stack and the scene share and mutate them.
    - The methods of the scene run in a state monad over [Scene]; the monad is
      partial where a call raises: the framework refuses a [play] or [wait]
      whose duration is not positive, and [pop(0)] of an empty list fails.
    - The clock of the model counts the durations that the methods ask for.
      The renderer itself advances in whole frames, at least one for each
      call, so its reading depends on the frame rate of the run; that is not
      modelled. Durations are therefore stated on the trace of the calls, and
      of the clock only that it moves forward. *)

From Stdlib Require Import ZArith NArith QArith Qminmax Qabs Qreals Reals Psatz List String Ascii.
From stdpp Require Import base option list list_numbers gmap.
From Equations Require Import Equations.
Import ListNotations.
Open Scope list_scope.

(** ** Python strings *)

Module PyStr.

(** A code point. *)
Definition char := N.
Definition str := list char.

(** An ASCII literal as a Python string. *)
Definition lit (s : string) : str := map N_of_ascii (list_ascii_of_string s).

(** The non-ASCII symbols the replacement table writes. *)
Definition sup2 : char := 178%N.        (* U+00B2 superscript two *)
Definition sup3 : char := 179%N.        (* U+00B3 superscript three *)
Definition sup4 : char := 8308%N.       (* U+2074 superscript four *)
Definition sup6 : char := 8310%N.       (* U+2076 superscript six *)
Definition supminus : char := 8315%N.   (* U+207B superscript minus *)
Definition omega : char := 969%N.       (* U+03C9 *)
Definition pi : char := 960%N.          (* U+03C0 *)
Definition theta : char := 952%N.       (* U+03B8 *)
Definition half : char := 189%N.        (* U+00BD *)
Definition root : char := 8730%N.       (* U+221A *)

(** [s.startswith(p)]. *)
Fixpoint starts_with (p s : str) : bool :=
  match p, s with
  | [], _ => true
  | _ :: _, [] => false
  | a :: p', b :: s' => N.eqb a b && starts_with p' s'
  end.

(** [s.replace(old, new)]: every non-overlapping occurrence of [old],
    found from left to right, becomes [new]. With an empty [old] Python
    puts [new] before every character and at the end. *)
Equations? replace (old new s : str) : str by wf (length s) lt :=
  replace [] new s := new ++ flat_map (fun c => c :: new) s;
  replace (o :: old') new [] := [];
  replace (o :: old') new (c :: s') with starts_with (o :: old') (c :: s') => {
    | true := new ++ replace (o :: old') new (skipn (length old') s');
    | false := c :: replace (o :: old') new s' }.
Proof.
  all: simpl; try rewrite length_skipn; lia.
Qed.

(** The replacement table of [create_superscript_text], lines 1166-1185,
    one [replace] per source line, in the source's order. *)
Definition superscript_string (text_string : str) : str :=
  let text_string := replace (lit "^2") [sup2] text_string in
  let text_string := replace (lit "^3") [sup3] text_string in
  let text_string := replace (lit "v^2") (lit "v" ++ [sup2]) text_string in
  let text_string := replace (lit "x^2") (lit "x" ++ [sup2]) text_string in
  let text_string := replace (lit "A^2") (lit "A" ++ [sup2]) text_string in
  let text_string := replace (lit "w^2") [omega; sup2] text_string in
  let text_string := replace (lit "omega^2") [omega; sup2] text_string in
  let text_string := replace (lit "10^6") (lit "10" ++ [sup6]) text_string in
  let text_string := replace (lit "10^-4") (lit "10" ++ [supminus; sup4]) text_string in
  let text_string := replace (lit "omega") [omega] text_string in
  let text_string := replace (lit "pi") [pi] text_string in
  let text_string := replace (lit "theta") [theta] text_string in
  let text_string := replace (lit "1/2") [half] text_string in
  let text_string := replace (lit "sqrt") [root] text_string in
  text_string.

(** The same table with the lines for "v^2", "x^2", "A^2", "w^2" and
    "omega^2" (1168-1172) deleted: the variant the table is compared with. *)
Definition superscript_string_pruned (text_string : str) : str :=
  let text_string := replace (lit "^2") [sup2] text_string in
  let text_string := replace (lit "^3") [sup3] text_string in
  let text_string := replace (lit "10^6") (lit "10" ++ [sup6]) text_string in
  let text_string := replace (lit "10^-4") (lit "10" ++ [supminus; sup4]) text_string in
  let text_string := replace (lit "omega") [omega] text_string in
  let text_string := replace (lit "pi") [pi] text_string in
  let text_string := replace (lit "theta") [theta] text_string in
  let text_string := replace (lit "1/2") [half] text_string in
  let text_string := replace (lit "sqrt") [root] text_string in
  text_string.

(** [s] begins with the character [b]. *)
Definition head_is (b : char) (s : str) : bool :=
  match s with
  | y :: _ => N.eqb y b
  | [] => false
  end.

(** [a] immediately followed by [b] somewhere in [s]. *)
Fixpoint has_pair (a b : char) (s : str) : bool :=
  match s with
  | [] => false
  | x :: t => (N.eqb x a && head_is b t) || has_pair a b t
  end.

(** [old in s]. *)
Fixpoint contains (old s : str) : bool :=
  match s with
  | [] => starts_with old []
  | _ :: t => starts_with old s || contains old t
  end.

(** The character [c] occurs in [s]. *)
Definition occurs_in (c : char) (s : str) : bool := existsb (N.eqb c) s.

(** No character of [p] occurs in [q]. *)
Definition disjoint_chars (p q : str) : bool :=
  forallb (fun c => negb (occurs_in c q)) p.

(** The pairs (old, new) of lines 1166-1185, in the source's order. *)
Definition replacement_table : list (str * str) :=
  [(lit "^2", [sup2]); (lit "^3", [sup3]);
   (lit "v^2", lit "v" ++ [sup2]); (lit "x^2", lit "x" ++ [sup2]);
   (lit "A^2", lit "A" ++ [sup2]); (lit "w^2", [omega; sup2]);
   (lit "omega^2", [omega; sup2]);
   (lit "10^6", lit "10" ++ [sup6]); (lit "10^-4", lit "10" ++ [supminus; sup4]);
   (lit "omega", [omega]); (lit "pi", [pi]); (lit "theta", [theta]);
   (lit "1/2", [half]); (lit "sqrt", [root])].

(** The patterns that the finished text is free of. *)
Definition rendered_patterns : list str :=
  [lit "^2"; lit "^3"; lit "omega"; lit "pi"; lit "theta"; lit "1/2"; lit "sqrt"].

(** A later line of the table cannot create the pattern [p]: both its
    texts are non-empty and its new text shares no character with [p]. *)
Definition pass_keeps_free (p : str) (line : str * str) : bool :=
  let '(old, new) := line in
  negb (bool_decide (old = [])) && negb (bool_decide (new = [])) && disjoint_chars p new.

(** Some line of the table replaces [p] by a non-empty text that shares no
    character with it, and no later line can create [p] again. *)
Fixpoint rendered_by (p : str) (table : list (str * str)) : bool :=
  match table with
  | [] => false
  | (old, new) :: rest =>
      (bool_decide (old = p) && negb (bool_decide (p = [])) && negb (bool_decide (new = []))
       && disjoint_chars p new && forallb (pass_keeps_free p) rest)
      || rendered_by p rest
  end.

End PyStr.

(** ** The scene: clock, mobject heap, overlay stack, narration blocks *)

Module Engine.

Open Scope Q_scope.

(** *** Vectors, colours, mobjects *)

Definition Vec3 : Type := Q * Q * Q.

Definition ORIGIN : Vec3 := (0, 0, 0).
Definition UP : Vec3 := (0, 1, 0).
Definition DOWN : Vec3 := (0, -1, 0).
Definition RIGHT : Vec3 := (1, 0, 0).
Definition LEFT : Vec3 := (-1, 0, 0).

Definition vadd (u v : Vec3) : Vec3 :=
  let '(a, b, c) := u in let '(x, y, z) := v in (a + x, b + y, c + z).

(** [v * k] for a vector [v] and a number [k]. *)
Definition vscale (v : Vec3) (k : Q) : Vec3 :=
  let '(a, b, c) := v in (a * k, b * k, c * k).

Definition veq (u v : Vec3) : Prop :=
  let '(a, b, c) := u in let '(x, y, z) := v in a == x /\ b == y /\ c == z.

Definition veqb (u v : Vec3) : bool :=
  let '(a, b, c) := u in let '(x, y, z) := v in
  Qeq_bool a x && Qeq_bool b y && Qeq_bool c z.

Inductive Color := YELLOW | BLUE | GRAY | RED | GREEN | WHITE.

(** The keys of the [self.colors] dictionary. *)
Inductive ColorKey :=
| key_mass | key_spring | key_wall | key_kinetic_energy
| key_potential_energy | key_total_energy | key_amplitude_markers
| key_text_primary | key_text_secondary | key_highlight.

Definition colors (k : ColorKey) : Color :=
  match k with
  | key_mass => YELLOW
  | key_spring => BLUE
  | key_wall => GRAY
  | key_kinetic_energy => BLUE
  | key_potential_energy => RED
  | key_total_energy => GREEN
  | key_amplitude_markers => BLUE
  | key_text_primary => WHITE
  | key_text_secondary => BLUE
  | key_highlight => YELLOW
  end.

(** Layout constants of [__init__], lines 25-27. *)
Definition DIAGRAM_BASELINE_SHIFT : Vec3 := vscale UP 0.5.
Definition TEXT_FLOW_SHIFT : Vec3 := vscale UP 3.
Definition text_center_position : Vec3 := vadd (vscale RIGHT 3) (vscale UP 0.5).

Inductive Shape :=
| Text (text : PyStr.str) (font_size : Q)
| Dot (fill_opacity stroke_opacity : Q)
| Blank.                                  (* a bare [Mobject()] *)

Record Mobject := mkMobject {
  shape : Shape;
  color : Color;
  center : Vec3
}.

Definition set_center (p : Vec3) (m : Mobject) : Mobject :=
  {| shape := shape m; color := color m; center := p |}.

Definition set_color (c : Color) (m : Mobject) : Mobject :=
  {| shape := shape m; color := c; center := center m |}.

(** *** Scene attributes and animations *)

(** The diagram objects kept in attributes of the scene. *)
Inductive SceneAttr := wall | spring | mass | equilibrium_line | amplitude_markers.

(** The redraw functions handed to [always_redraw]. *)
Inductive Redraw := draw_constrained_spring_fn | draw_constrained_mass_fn.

Inductive AttrValue := Static | AlwaysRedraw (f : Redraw).

(** What an animation or [remove] acts on: a diagram attribute or a heap
    object. *)
Inductive Target := OfAttr (a : SceneAttr) | OfObj (id : nat).

#[export] Instance SceneAttr_eq_dec : EqDecision SceneAttr.
Proof. solve_decision. Defined.

#[export] Instance Target_eq_dec : EqDecision Target.
Proof. solve_decision. Defined.

Inductive Animation :=
| Create (t : Target)
| FadeIn (t : Target) (scale : Q)
| AnimateShift (t : Target) (v : Vec3)        (* [t.animate.shift(v)] *)
| AnimateSetColor (t : Target) (c : Color).   (* [t.animate.set_color(c)] *)

Definition anim_target (a : Animation) : Target :=
  match a with
  | Create t | FadeIn t _ | AnimateShift t _ | AnimateSetColor t _ => t
  end.

(** One entry of the scene's trace: a framework call that the methods make. *)
Inductive Event :=
| Played (anims : list Animation) (run_time : Q)
| Waited (duration : Q)
| Removed (t : Target).

Record Scene := mkScene {
  renderer_time : option Q;          (* [self.renderer.time], if the attribute exists *)
  heap : gmap nat Mobject;           (* the mobjects created so far *)
  next_id : nat;                     (* identifier of the next mobject *)
  text_content_stack : list nat;     (* [self.text_content_stack] *)
  attrs : list (SceneAttr * AttrValue);  (* diagram attributes assigned so far *)
  mobjects : list Target;            (* the scene's display list *)
  trace : list Event                 (* framework calls, oldest first *)
}.

(** The scene after [__init__]: empty stack, nothing created. *)
Definition init_scene (t : option Q) : Scene :=
  {| renderer_time := t; heap := ∅; next_id := 0%nat; text_content_stack := [];
     attrs := []; mobjects := []; trace := [] |}.

(** *** The monad of scene methods *)

Definition M (A : Type) : Type := Scene -> option (A * Scene).

#[export] Instance M_ret : MRet M := fun A a s => Some (a, s).
#[export] Instance M_bind : MBind M := fun A B f m s =>
  match m s with
  | Some (a, s') => f a s'
  | None => None
  end.

Definition gets {A} (f : Scene -> A) : M A := fun s => Some (f s, s).
Definition modify (f : Scene -> Scene) : M unit := fun s => Some (tt, f s).
(** A call that raises: the method does not return. *)
Definition raises {A} : M A := fun _ => None.

(** The state a method leaves, when it returns. *)
Definition exec {A} (m : M A) (s : Scene) : option Scene := snd <$> m s.

Definition Qltb (x y : Q) : bool :=
  match x ?= y with Lt => true | _ => false end.

(** *** Framework calls *)

Definition with_heap (h : gmap nat Mobject) (s : Scene) : Scene :=
  {| renderer_time := renderer_time s; heap := h; next_id := next_id s;
     text_content_stack := text_content_stack s; attrs := attrs s;
     mobjects := mobjects s; trace := trace s |}.

Definition with_stack (l : list nat) (s : Scene) : Scene :=
  {| renderer_time := renderer_time s; heap := heap s; next_id := next_id s;
     text_content_stack := l; attrs := attrs s;
     mobjects := mobjects s; trace := trace s |}.

Definition with_mobjects (l : list Target) (s : Scene) : Scene :=
  {| renderer_time := renderer_time s; heap := heap s; next_id := next_id s;
     text_content_stack := text_content_stack s; attrs := attrs s;
     mobjects := l; trace := trace s |}.

Definition with_attr (a : SceneAttr) (v : AttrValue) (s : Scene) : Scene :=
  {| renderer_time := renderer_time s; heap := heap s; next_id := next_id s;
     text_content_stack := text_content_stack s; attrs := (a, v) :: attrs s;
     mobjects := mobjects s; trace := trace s |}.

(** The call is recorded and the clock moves by [dt], the duration asked
    for. The renderer moves its clock frame by frame, by whole frames and
    at least one; the properties below state durations on the trace, and of
    the clock only that it moves forward. *)
Definition tick (e : Event) (dt : Q) (s : Scene) : Scene :=
  {| renderer_time := (fun t => t + dt) <$> renderer_time s;
     heap := heap s; next_id := next_id s;
     text_content_stack := text_content_stack s; attrs := attrs s;
     mobjects := mobjects s; trace := trace s ++ [e] |}.

(** A new mobject: the constructor call [Text(...)] or [Dot(...)]. *)
Definition alloc (m : Mobject) : M nat := fun s =>
  Some (next_id s,
        {| renderer_time := renderer_time s;
           heap := <[next_id s := m]> (heap s);
           next_id := S (next_id s);
           text_content_stack := text_content_stack s; attrs := attrs s;
           mobjects := mobjects s; trace := trace s |}).

(** [m.move_to(p)]: an immediate change of the object, no animation. *)
Definition move_to (id : nat) (p : Vec3) : M unit :=
  modify (fun s => with_heap (alter (set_center p) id (heap s)) s).

(** The state an animation leaves its mobject in when it finishes. Every
    [play] of the source animates each object at most once; two shifts of
    one object in one [play] are outside what is stated below. *)
Definition finish (a : Animation) (h : gmap nat Mobject) : gmap nat Mobject :=
  match a with
  | AnimateShift (OfObj id) v => alter (fun m => set_center (vadd (center m) v) m) id h
  | AnimateSetColor (OfObj id) c => alter (set_color c) id h
  | _ => h
  end.

Definition add_to_scene (t : Target) (l : list Target) : list Target :=
  if decide (t ∈ l) then l else l ++ [t].

(** [self.play] applied to the animations [anims] with [run_time]: every
    animated mobject is on the display list afterwards and in its final
    state, and the clock has moved on. The framework refuses a [run_time]
    that is not positive (Manim raises [ValueError]: the run time must be a
    positive number); the call then fails and changes nothing. *)
Definition play (anims : list Animation) (run_time : Q) : M unit :=
  if Qltb 0 run_time then
    modify (fun s =>
      tick (Played anims run_time) run_time
        (with_mobjects (foldl (fun l a => add_to_scene (anim_target a) l) (mobjects s) anims)
           (with_heap (foldl (fun h a => finish a h) (heap s) anims) s)))
  else raises.

(** [self.wait(duration)]: the framework plays a [Wait] animation. Its
    mobject is a bare [Mobject()] of its own, which is put on the display
    list like every animated mobject, and nothing takes it off again. A
    duration that is not positive is refused like a run time. *)
Definition wait (duration : Q) : M unit :=
  if Qltb 0 duration then
    placeholder ← alloc {| shape := Blank; color := WHITE; center := ORIGIN |};
    modify (fun s =>
      tick (Waited duration) duration
        (with_mobjects (add_to_scene (OfObj placeholder) (mobjects s)) s))
  else raises.

(** [self.remove(m)]. *)
Definition remove (t : Target) : M unit :=
  modify (fun s =>
    {| renderer_time := renderer_time s; heap := heap s; next_id := next_id s;
       text_content_stack := text_content_stack s; attrs := attrs s;
       mobjects := filter (fun x => x ≠ t) (mobjects s);
       trace := trace s ++ [Removed t] |}).

(** *** Methods of the scene *)

(** [create_superscript_text], lines 1148-1193: the replacement table,
    then a new [Text] object, which Manim centres on the origin. *)
Definition create_superscript_text (text_string : PyStr.str) (color : Color)
    (font_size : Q) : M nat :=
  alloc {| shape := Text (PyStr.superscript_string text_string) font_size;
           color := color; center := ORIGIN |}.

(** The variant of [create_superscript_text] without lines 1168-1172. *)
Definition create_superscript_text_pruned (text_string : PyStr.str) (color : Color)
    (font_size : Q) : M nat :=
  alloc {| shape := Text (PyStr.superscript_string_pruned text_string) font_size;
           color := color; center := ORIGIN |}.

(** [keep_animation_running], lines 1115-1146. *)
Definition keep_animation_running (duration : Q) : M unit :=
  dummy ← alloc {| shape := Dot 0 0; color := WHITE; center := ORIGIN |};
  move_to dummy ORIGIN;;
  play [AnimateShift (OfObj dummy) (vscale UP 0.001)] duration;;
  remove (OfObj dummy).

(** [add_flowing_text], lines 1195-1257. *)
Definition add_flowing_text (text_content : nat) : M unit :=
  move_to text_content text_center_position;;
  stack ← gets text_content_stack;
  (if (0 <? length stack)%nat then
     let flow_animations :=
       map (fun existing_content => AnimateShift (OfObj existing_content) TEXT_FLOW_SHIFT)
           stack in
     match flow_animations with
     | [] => mret tt
     | _ :: _ => play flow_animations 0.5
     end
   else mret tt);;
  modify (fun s => with_stack (text_content_stack s ++ [text_content]) s);;
  play [FadeIn (OfObj text_content) 1.1] 0.8;;
  stack ← gets text_content_stack;
  if (6 <? length stack)%nat then
    match stack with
    | oldest_content :: rest =>
        modify (with_stack rest);;
        remove (OfObj oldest_content)
    | [] => raises              (* [pop(0)] of an empty list raises *)
    end
  else mret tt.

(** [highlight_amplitude_concept], lines 1083-1113. *)
Definition highlight_amplitude_concept : M unit :=
  play [AnimateSetColor (OfAttr amplitude_markers) (colors key_highlight)] 0.6;;
  play [AnimateSetColor (OfAttr amplitude_markers) (colors key_amplitude_markers)] 0.6.

(** [create_spring_mass_system], lines 630-682: the wall and the
    equilibrium line are fixed shapes, the spring and the mass are
    redrawn every frame by their functions. It calls neither [play] nor
    [wait]. *)
Definition create_spring_mass_system : M unit :=
  modify (with_attr wall Static);;
  modify (with_attr spring (AlwaysRedraw draw_constrained_spring_fn));;
  modify (with_attr mass (AlwaysRedraw draw_constrained_mass_fn));;
  modify (with_attr equilibrium_line Static).

(** [create_amplitude_markers], lines 834-894. *)
Definition create_amplitude_markers : M unit :=
  modify (with_attr amplitude_markers Static).

(** The padding that ends every narration block (lines 147-149, 178-180,
    199-201, ...): [tracker_duration] is the narration's length and
    [budget] the literal the block subtracts from it. *)
Definition keep_alive_padding (tracker_duration budget : Q) : M unit :=
  let remaining_time := Qmax 0 (tracker_duration - budget) in
  if Qltb 0 remaining_time then keep_animation_running remaining_time
  else mret tt.

(** The bodies of the three narration blocks of [scene_1_oscillator_setup].
    The [voiceover] context manager itself belongs to the narration
    library; [tracker_duration] is the [tracker.duration] it supplies. *)

(** Lines 112-149. *)
Definition scene_1_block_1 (tracker_duration : Q) : M unit :=
  create_spring_mass_system;;
  play [Create (OfAttr wall); Create (OfAttr spring); Create (OfAttr mass);
        Create (OfAttr equilibrium_line)]
       (Qmin 3.0 (tracker_duration * 0.5));;
  create_amplitude_markers;;
  play [Create (OfAttr amplitude_markers)] 1.0;;
  keep_alive_padding tracker_duration 4.0.

(** Lines 157-180. *)
Definition scene_1_block_2 (tracker_duration : Q) : M unit :=
  highlight_amplitude_concept;;
  amplitude_text ← create_superscript_text
    (PyStr.lit "Amplitude A = 0.01 m (system boundary)") (colors key_text_secondary) 24;
  add_flowing_text amplitude_text;;
  keep_alive_padding tracker_duration 2.0.

(** Lines 187-201. *)
Definition scene_1_block_3 (tracker_duration : Q) : M unit :=
  motion_text ← create_superscript_text
    (PyStr.lit "Harmonic Motion: x(t) = A cos(" ++ [PyStr.omega] ++ PyStr.lit "t)")
    (colors key_text_primary) 24;
  add_flowing_text motion_text;;
  keep_alive_padding tracker_duration 1.0.

(** One overlay post, as every call site writes it (lines 171-172,
    193-194, 234-235, ...): a new text is created and handed to
    [add_flowing_text]. *)
Definition post_text (content : PyStr.str * Color) : M unit :=
  text ← create_superscript_text (fst content) (snd content) 24;
  add_flowing_text text.

(** A sequence of calls of [add_flowing_text]. *)
Fixpoint add_flowing_texts (texts : list nat) : M unit :=
  match texts with
  | [] => mret tt
  | text_content :: rest => add_flowing_text text_content;; add_flowing_texts rest
  end.

(** A sequence of posts. *)
Fixpoint run_posts (contents : list (PyStr.str * Color)) : M unit :=
  match contents with
  | [] => mret tt
  | content :: rest => post_text content;; run_posts rest
  end.

(** *** Observations on a trace *)

(** The time a framework call asks for. *)
Definition event_duration (e : Event) : Q :=
  match e with
  | Played _ run_time => run_time
  | Waited duration => duration
  | Removed _ => 0
  end.

(** The virtual time a trace spans. *)
Definition elapsed (tr : list Event) : Q :=
  foldr (fun e acc => event_duration e + acc) 0 tr.

(** The events a method appended to the trace. *)
Definition new_events (before after : Scene) : list Event :=
  drop (length (trace before)) (trace after).

(** A keep-alive tick: the [play] of [keep_animation_running], which
    only shifts an invisible dot by a thousandth of a unit. *)
Definition is_keep_alive (e : Event) : option Q :=
  match e with
  | Played [AnimateShift (OfObj _) v] run_time =>
      if veqb v (vscale UP 0.001) then Some run_time else None
  | _ => None
  end.

(** The durations of the keep-alive ticks in a trace. *)
Definition keep_alive_ticks (tr : list Event) : list Q :=
  omap is_keep_alive tr.

(** The durations of the other calls: the block's visual actions. *)
Definition action_durations (tr : list Event) : list Q :=
  omap (fun e => match is_keep_alive e, e with
                 | None, Played _ d | None, Waited d => Some d
                 | _, _ => None
                 end) tr.

Definition Qsum (l : list Q) : Q := foldr Qplus 0 l.

(** The overlay entries a trace removes from the scene, oldest removal
    first. *)
Definition evictions (tr : list Event) : list nat :=
  omap (fun e => match e with
                 | Removed (OfObj id) => Some id
                 | _ => None
                 end) tr.





End Engine.

(** ** The physical model and the redraw functions *)

Module Physics.

Import Engine.
Open Scope R_scope.

Definition RVec3 : Type := R * R * R.

(** Constants of [__init__], lines 38-46, and the second coordinate of
    [DIAGRAM_BASELINE_SHIFT]. *)
Definition period : R := 4.0.
Definition wall_x : R := -4.5.
Definition equilibrium_x : R := -2.5.
Definition amplitude_visual : R := 1.0.
Definition baseline_y : R := Q2R (snd (fst DIAGRAM_BASELINE_SHIFT)).

(** [self.renderer.time if hasattr(self.renderer, 'time') else 0]. *)
Definition current_time (s : Scene) : R :=
  match renderer_time s with
  | Some t => Q2R t
  | None => 0
  end.

(** [np.sign]. *)
Definition np_sign (x : R) : R :=
  if Rlt_dec x 0 then -1 else if Rlt_dec 0 x then 1 else 0.

(** [int(x)]: truncation towards zero. *)
Definition py_int (x : R) : Z :=
  if Rle_dec 0 x then Int_part x else (- Int_part (- x))%Z.

(** [np.linalg.norm] of a vector. *)
Definition norm (v : RVec3) : R :=
  let '(x, y, z) := v in sqrt (x * x + y * y + z * z).

Definition rvadd (u v : RVec3) : RVec3 :=
  let '(a, b, c) := u in let '(x, y, z) := v in (a + x, b + y, c + z).
Definition rvsub (u v : RVec3) : RVec3 :=
  let '(a, b, c) := u in let '(x, y, z) := v in (a - x, b - y, c - z).
Definition rvscale (k : R) (v : RVec3) : RVec3 :=
  let '(x, y, z) := v in (k * x, k * y, k * z).
Definition RUP : RVec3 := (0, 1, 0).

(** [np.linspace(start, stop, num)]. *)
Definition linspace (start stop : R) (num : nat) : list R :=
  match num with
  | 0%nat => []
  | 1%nat => [start]
  | _ => map (fun i => start + INR i * ((stop - start) / INR (num - 1))) (seq 0 num)
  end.

(** The offset [A cos(2 pi t / T)] that lines 708, 800 and 1064 compute. *)
Definition position_offset (current_time : R) : R :=
  amplitude_visual * cos (2 * PI * current_time / period).

(** What the redraw functions return. *)
Record Circle := mkCircle {
  circle_center : RVec3;
  radius : R;
  circle_color : Color;
  fill_opacity : R;
  stroke_width : R;
  stroke_color : Color
}.

Inductive Curve :=
| Corners (points : list RVec3) (c : Color) (stroke : R)   (* [VMobject] through corner points *)
| Line (start finish : RVec3) (c : Color) (stroke : R).

(** [draw_constrained_mass], lines 800-832, at the time read in line 793. *)
Definition draw_constrained_mass_at (current_time : R) : Circle :=
  let position_offset := amplitude_visual * cos (2 * PI * current_time / period) in
  let mass_x := equilibrium_x + position_offset in
  let '(position_offset, mass_x) :=
    if Rgt_dec (Rabs position_offset) amplitude_visual then
      let position_offset := np_sign position_offset * amplitude_visual in
      (position_offset, equilibrium_x + position_offset)
    else (position_offset, mass_x) in
  let mass_position := (mass_x, baseline_y, 0) in
  {| circle_center := mass_position; radius := 0.2;
     circle_color := colors key_mass; fill_opacity := 0.8;
     stroke_width := 3; stroke_color := colors key_mass |}.

(** [draw_constrained_spring], lines 708-774, at the time read in line 701. *)
Definition draw_constrained_spring_at (current_time : R) : Curve :=
  let position_offset := amplitude_visual * cos (2 * PI * current_time / period) in
  let mass_x := equilibrium_x + position_offset in
  let wall_attachment : RVec3 := (wall_x + 0.15, baseline_y, 0) in
  let mass_attachment : RVec3 := (mass_x - 0.2, baseline_y, 0) in
  let spring_length := norm (rvsub mass_attachment wall_attachment) in
  let num_coils := Z.max 6 (py_int (8 * spring_length / 2.0)) in
  let t_values := linspace 0 1 (Z.to_nat (num_coils * 4)) in
  let spring_points :=
    map (fun t =>
           let base_position :=
             rvadd wall_attachment (rvscale t (rvsub mass_attachment wall_attachment)) in
           let coil_amplitude := 0.1 in
           let coil_offset :=
             rvscale (coil_amplitude * sin (2 * PI * IZR num_coils * t)) RUP in
           rvadd base_position coil_offset)
        t_values in
  if (1 <? length spring_points)%nat then
    Corners spring_points (colors key_spring) 3
  else
    Line wall_attachment mass_attachment (colors key_spring) 3.

(** [get_kinetic_energy_fraction], lines 1024-1041. *)
Definition ke_max : R := 0.5 * (amplitude_visual * 2 * PI / period) ^ 2.

Definition get_kinetic_energy_fraction_at (current_time : R) : R :=
  let velocity :=
    - amplitude_visual * (2 * PI / period) * sin (2 * PI * current_time / period) in
  let ke_current := 0.5 * velocity ^ 2 in
  let ke_max := 0.5 * (amplitude_visual * 2 * PI / period) ^ 2 in
  if Rgt_dec ke_max 1e-10 then ke_current / ke_max else 0.0.

(** [get_potential_energy_fraction], lines 1064-1081. *)
Definition pe_max : R := 0.5 * amplitude_visual ^ 2.

Definition get_potential_energy_fraction_at (current_time : R) : R :=
  let position_offset := amplitude_visual * cos (2 * PI * current_time / period) in
  let pe_current := 0.5 * position_offset ^ 2 in
  let pe_max := 0.5 * amplitude_visual ^ 2 in
  if Rgt_dec pe_max 1e-10 then pe_current / pe_max else 0.0.

(** The methods themselves: they read the clock of the scene and write
    nothing. *)
Definition draw_constrained_mass : M Circle :=
  t ← gets current_time; mret (draw_constrained_mass_at t).

Definition draw_constrained_spring : M Curve :=
  t ← gets current_time; mret (draw_constrained_spring_at t).

Definition get_kinetic_energy_fraction : M R :=
  t ← gets current_time; mret (get_kinetic_energy_fraction_at t).

Definition get_potential_energy_fraction : M R :=
  t ← gets current_time; mret (get_potential_energy_fraction_at t).

(** The heights of the two bar fills that [create_energy_bars] redraws
    every frame (lines 932-938 and 957-963). *)
Definition ke_bar_fill_height (current_time : R) : R :=
  get_kinetic_energy_fraction_at current_time * 2.0.

Definition pe_bar_fill_height (current_time : R) : R :=
  get_potential_energy_fraction_at current_time * 2.0.

(** [create_amplitude_markers], lines 851-876: the two marker lines. *)
Definition left_pos_x : R := equilibrium_x - amplitude_visual.
Definition right_pos_x : R := equilibrium_x + amplitude_visual.

Definition left_marker : Curve :=
  Line (left_pos_x, baseline_y + 0.6, 0) (left_pos_x, baseline_y - 0.6, 0)
       (colors key_amplitude_markers) 4.

Definition right_marker : Curve :=
  Line (right_pos_x, baseline_y + 0.6, 0) (right_pos_x, baseline_y - 0.6, 0)
       (colors key_amplitude_markers) 4.

(** The horizontal position of a marker line. *)
Definition marker_x (c : Curve) : R :=
  match c with
  | Line (x, _, _) _ _ _ => x
  | Corners _ _ _ => 0
  end.

(** The values that [draw_constrained_spring] binds on its way (lines
    716-731), as functions of the time. *)
Definition wall_attachment : RVec3 := (wall_x + 0.15, baseline_y, 0).

Definition mass_attachment_at (current_time : R) : RVec3 :=
  (equilibrium_x + position_offset current_time - 0.2, baseline_y, 0).

Definition spring_length_at (current_time : R) : R :=
  norm (rvsub (mass_attachment_at current_time) wall_attachment).

Definition num_coils_at (current_time : R) : Z :=
  Z.max 6 (py_int (8 * spring_length_at current_time / 2.0)).

(** The point of the spring at parameter [u] (lines 745-757). *)
Definition spring_point_at (current_time u : R) : RVec3 :=
  rvadd (rvadd wall_attachment
               (rvscale u (rvsub (mass_attachment_at current_time) wall_attachment)))
        (rvscale (0.1 * sin (2 * PI * IZR (num_coils_at current_time) * u)) RUP).

(** The corner points of a curve; a line has its two ends. *)
Definition curve_points (c : Curve) : list RVec3 :=
  match c with
  | Corners points _ _ => points
  | Line start finish _ _ => [start; finish]
  end.

(** [create_energy_bars], lines 913-975: the outlines, the fills that are
    redrawn every frame, and the reference line. *)
Record Rectangle := mkRectangle {
  rect_center : RVec3;
  rect_width : R;
  rect_height : R;
  rect_color : Color;
  rect_stroke_width : R;
  rect_fill_opacity : R
}.

Definition RDOWN : RVec3 := (0, -1, 0).
Definition RLEFT : RVec3 := (-1, 0, 0).
Definition RORIGIN : RVec3 := (0, 0, 0).

(** The edges of a rectangle. *)
Definition rect_bottom (r : Rectangle) : R :=
  let '(_, y, _) := rect_center r in y - rect_height r / 2.
Definition rect_top (r : Rectangle) : R :=
  let '(_, y, _) := rect_center r in y + rect_height r / 2.
Definition rect_left (r : Rectangle) : R :=
  let '(x, _, _) := rect_center r in x - rect_width r / 2.
Definition rect_right (r : Rectangle) : R :=
  let '(x, _, _) := rect_center r in x + rect_width r / 2.

Definition rect_shift (v : RVec3) (r : Rectangle) : Rectangle :=
  {| rect_center := rvadd (rect_center r) v; rect_width := rect_width r;
     rect_height := rect_height r; rect_color := rect_color r;
     rect_stroke_width := rect_stroke_width r;
     rect_fill_opacity := rect_fill_opacity r |}.

(** [r.move_to(p)]. *)
Definition rect_move_to (p : RVec3) (r : Rectangle) : Rectangle :=
  rect_shift (rvsub p (rect_center r)) r.

(** [r.align_to(target, DOWN)] and [r.align_to(target, LEFT)]: [r] is
    moved along one axis until its lower, or left, edge is that of
    [target]. *)
Definition align_to_down (target r : Rectangle) : Rectangle :=
  rect_shift (0, rect_bottom target - rect_bottom r, 0) r.
Definition align_to_left (target r : Rectangle) : Rectangle :=
  rect_shift (rect_left target - rect_left r, 0, 0) r.

(** Line 913. *)
Definition bar_y_position : RVec3 := rvadd (rvscale 2.8 RDOWN) (0, baseline_y, 0).

(** Lines 920-925 and 945-950. *)
Definition ke_bar_outline : Rectangle :=
  rect_move_to (rvadd (rvscale 3.5 RLEFT) bar_y_position)
    {| rect_center := RORIGIN; rect_width := 0.6; rect_height := 2.0;
       rect_color := colors key_kinetic_energy; rect_stroke_width := 3;
       rect_fill_opacity := 0.1 |}.

Definition pe_bar_outline : Rectangle :=
  rect_move_to (rvadd (rvscale 2.3 RLEFT) bar_y_position)
    {| rect_center := RORIGIN; rect_width := 0.6; rect_height := 2.0;
       rect_color := colors key_potential_energy; rect_stroke_width := 3;
       rect_fill_opacity := 0.1 |}.

(** Lines 932-938 and 957-963: what the two redraw functions return at a
    given time. *)
Definition ke_bar_fill_at (current_time : R) : Rectangle :=
  align_to_left ke_bar_outline
    (align_to_down ke_bar_outline
       {| rect_center := RORIGIN; rect_width := 0.6;
          rect_height := get_kinetic_energy_fraction_at current_time * 2.0;
          rect_color := colors key_kinetic_energy; rect_stroke_width := 0;
          rect_fill_opacity := 0.8 |}).

Definition pe_bar_fill_at (current_time : R) : Rectangle :=
  align_to_left pe_bar_outline
    (align_to_down pe_bar_outline
       {| rect_center := RORIGIN; rect_width := 0.6;
          rect_height := get_potential_energy_fraction_at current_time * 2.0;
          rect_color := colors key_potential_energy; rect_stroke_width := 0;
          rect_fill_opacity := 0.8 |}).

(** Lines 970-975. *)
Definition total_energy_line : Curve :=
  Line (rvadd (rvadd (rvscale 4.2 RLEFT) bar_y_position) (rvscale 2.0 RUP))
       (rvadd (rvadd (rvscale 1.5 RLEFT) bar_y_position) (rvscale 2.0 RUP))
       (colors key_total_energy) 4.

(** The height at which a horizontal line lies, and its two ends. *)
Definition line_y (c : Curve) : R :=
  match c with
  | Line (_, y, _) _ _ _ => y
  | Corners _ _ _ => 0
  end.

Definition line_ends_x (c : Curve) : R * R :=
  match c with
  | Line (x1, _, _) (x2, _, _) _ _ => (x1, x2)
  | Corners _ _ _ => (0, 0)
  end.

End Physics.

(** ** Vocabulary of the properties *)

Module Observe.

Import Engine.
Open Scope Q_scope.

(** The clock reading of [after] is that of [before] plus [dt]; a
    renderer without a clock stays without one. *)
Definition clock_advanced_by (dt : Q) (before after : Scene) : Prop :=
  match renderer_time before, renderer_time after with
  | Some a, Some b => b == a + dt
  | None, None => True
  | _, _ => False
  end.

(** The clock of [after] reads no less, or more, than that of [before]; a
    renderer without a clock stays without one. *)
Definition clock_not_earlier (before after : Scene) : Prop :=
  match renderer_time before, renderer_time after with
  | Some a, Some b => a <= b
  | None, None => True
  | _, _ => False
  end.

Definition clock_later (before after : Scene) : Prop :=
  match renderer_time before, renderer_time after with
  | Some a, Some b => a < b
  | None, None => True
  | _, _ => False
  end.

(** The scene when the third block of scene 1 starts, for narrations of
    5.0 seconds. *)
Definition before_block_3 : option Scene :=
  exec (scene_1_block_1 5.0;; scene_1_block_2 5.0) (init_scene (Some 0)).

(** The heap after every entry of [l] has flowed upward once. *)
Definition shift_all (l : list nat) (h : gmap nat Mobject) : gmap nat Mobject :=
  foldl (fun h a => finish a h) h
        (map (fun existing_content => AnimateShift (OfObj existing_content) TEXT_FLOW_SHIFT) l).

Definition flowed (m : Mobject) : Mobject :=
  set_center (vadd (center m) TEXT_FLOW_SHIFT) m.

(** The stack after the bound check of lines 1255-1257. *)
Definition bounded (l : list nat) : list nat :=
  if (6 <? length l)%nat then drop 1 l else l.

(** The events one call of [add_flowing_text] records, for a stack [l]. *)
Definition post_events (l : list nat) (text_content : nat) : list Event :=
  match l with
  | [] => []
  | _ :: _ =>
      [Played (map (fun e => AnimateShift (OfObj e) TEXT_FLOW_SHIFT) l) 0.5]
  end
  ++ [Played [FadeIn (OfObj text_content) 1.1] 0.8]
  ++ (if (6 <? length (l ++ [text_content]))%nat
      then [Removed (OfObj (hd text_content l))] else []).


(** Seven texts, for the examples. *)
Definition seven_texts : list (PyStr.str * Color) :=
  [(PyStr.lit "E = 160 J", WHITE); (PyStr.lit "k", BLUE); (PyStr.lit "A^2", BLUE);
   (PyStr.lit "v^2", RED); (PyStr.lit "omega", GREEN); (PyStr.lit "1/2 k x^2", YELLOW);
   (PyStr.lit "PE_max", WHITE)].

(** The scene after the first six of them. *)
Definition six_posts_scene : Scene :=
  default (init_scene (Some 0)) (exec (run_posts (take 6 seven_texts)) (init_scene (Some 0))).

Definition Qnat (k : nat) : Q := inject_Z (Z.of_nat k).

(** The anchor moved up by [k] shifts. *)
Definition anchor_plus (k : nat) : Vec3 :=
  vadd text_center_position (vscale TEXT_FLOW_SHIFT (Qnat k)).


End Observe.

(** ** Shows as sequences of steps *)

Module Show.

Import Engine Observe.
Open Scope Q_scope.

(** The statements that the scene methods are made of. *)
Inductive Step :=
| Assign (a : SceneAttr) (v : AttrValue)            (* [self.a = ...] *)
| PlayDiagram (anims : list Animation) (run_time : Q)  (* [self.play] on diagram attributes *)
| Post (content : PyStr.str * Color)                (* a text is created and posted *)
| Wait (duration : Q)                               (* [self.wait(duration)] *)
| Pad (tracker_duration budget : Q)                 (* the padding that ends a block *)
| KeepAlive (duration : Q).                         (* [self.keep_animation_running(duration)] *)

Definition run_step (st : Step) : M unit :=
  match st with
  | Assign a v => modify (with_attr a v)
  | PlayDiagram anims run_time => play anims run_time
  | Post content => post_text content
  | Wait duration => wait duration
  | Pad tracker_duration budget => keep_alive_padding tracker_duration budget
  | KeepAlive duration => keep_animation_running duration
  end.

Fixpoint run_steps (steps : list Step) : M unit :=
  match steps with
  | [] => mret tt
  | st :: rest => run_step st;; run_steps rest
  end.

(** The animation acts on a diagram attribute. *)
Definition on_attr (a : Animation) : bool :=
  match anim_target a with
  | OfAttr _ => true
  | OfObj _ => false
  end.

(** The step hands the framework a positive duration, and a [play] on the
    diagram animates diagram attributes only. *)
Definition step_ok (st : Step) : bool :=
  match st with
  | PlayDiagram anims run_time => Qltb 0 run_time && forallb on_attr anims
  | Wait duration | KeepAlive duration => Qltb 0 duration
  | Assign _ _ | Post _ | Pad _ _ => true
  end.

(** The texts a sequence of steps posts, in order. *)
Definition posts_of (steps : list Step) : list (PyStr.str * Color) :=
  omap (fun st => match st with Post content => Some content | _ => None end) steps.

(** The time a sequence of steps asks the framework for; [posted] tells
    whether the overlay stack already has an entry when the sequence
    starts. *)
Fixpoint steps_time (posted : bool) (steps : list Step) : Q :=
  match steps with
  | [] => 0
  | Assign _ _ :: rest => steps_time posted rest
  | PlayDiagram _ run_time :: rest => run_time + steps_time posted rest
  | Post _ :: rest => (if posted then 1.3 else 0.8) + steps_time true rest
  | Wait duration :: rest => duration + steps_time posted rest
  | Pad tracker_duration budget :: rest =>
      Qmax 0 (tracker_duration - budget) + steps_time posted rest
  | KeepAlive duration :: rest => duration + steps_time posted rest
  end.

(** Whether the overlay already has an entry after the posts [posts]. *)
Definition posted (posts : list (PyStr.str * Color)) : bool :=
  match posts with [] => false | _ :: _ => true end.

(** The heap object behind a display-list entry, if it is one. *)
Definition obj_of (t : Target) : option nat :=
  match t with
  | OfObj id => Some id
  | OfAttr _ => None
  end.

(** The scene that [add_flowing_text text_content] leaves, in closed form. *)
Definition after_post (text_content : nat) (s : Scene) : Scene :=
  let l := text_content_stack s in
  let flow := map (fun e => AnimateShift (OfObj e) TEXT_FLOW_SHIFT) l in
  let shown :=
    add_to_scene (OfObj text_content)
      (foldl (fun m a => add_to_scene (anim_target a) m) (mobjects s) flow) in
  let full := (6 <? length (l ++ [text_content]))%nat in
  {| renderer_time :=
       (fun t => t + 0.8) <$>
         (match l with [] => renderer_time s | _ :: _ => (fun t => t + 0.5) <$> renderer_time s end);
     heap := shift_all l (alter (set_center text_center_position) text_content (heap s));
     next_id := next_id s;
     text_content_stack := bounded (l ++ [text_content]);
     attrs := attrs s;
     mobjects := if full then filter (fun x => x ≠ OfObj (hd text_content l)) shown else shown;
     trace := trace s ++ post_events l text_content |}.

(** The heap object is a text. *)
Definition is_text (s : Scene) (e : nat) : bool :=
  match heap s !! e with
  | Some m => match shape m with Text _ _ => true | _ => false end
  | None => false
  end.

(** The texts on the display list, in its order. *)
Definition texts_on_display (s : Scene) : list nat :=
  filter (fun e => is_text s e = true) (omap obj_of (mobjects s)).

(** The scene after steps that posted [posts] as the objects [ids]: the
    stack is the last six of [ids]; of the posted objects exactly the stack
    entries are on display, in the order of the stack; every other heap
    object on display is the placeholder of a [wait]; and the text of post
    [k], while on the stack, sits as many shifts above the anchor as posts
    came after it. *)
Definition show_inv (ids : list nat) (posts : list (PyStr.str * Color)) (s : Scene) : Prop :=
  length ids = length posts /\
  (forall e, e ∈ ids -> (e < next_id s)%nat) /\
  NoDup ids /\
  text_content_stack s = drop (length ids - 6) ids /\
  (forall e, OfObj e ∈ mobjects s -> (e < next_id s)%nat) /\
  filter (fun e => e ∈ ids) (omap obj_of (mobjects s)) = text_content_stack s /\
  (forall e, OfObj e ∈ mobjects s -> e ∉ ids ->
             exists m, heap s !! e = Some m /\ shape m = Blank) /\
  forall k e content,
    ids !! k = Some e -> posts !! k = Some content -> (length ids - 6 <= k)%nat ->
    exists m,
      heap s !! e = Some m /\
      shape m = Text (PyStr.superscript_string (fst content)) 24 /\
      color m = snd content /\
      veq (center m) (anchor_plus (length ids - 1 - k)).










(** A short show, for the examples: texts between diagram plays, waits and
    keep-alive ticks. *)
Definition example_show : list Step :=
  [Assign wall Static;
   PlayDiagram [Create (OfAttr wall)] 1.0;
   Post (PyStr.lit "Total energy: E = 160 J", colors key_text_secondary);
   Wait 0.5;
   Post (PyStr.lit "PE_max = 1/2 k A^2", colors key_potential_energy);
   Pad 5.0 2.5;
   KeepAlive 0.75;
   Post (PyStr.lit "Find: Maximum Potential Energy", colors key_highlight)].

(** Two more symbols that the texts of the show contain. *)
Definition times : PyStr.char := 215%N.        (* U+00D7 multiplication sign *)
Definition plus_minus : PyStr.char := 177%N.   (* U+00B1 *)

(** The texts that the scene methods hand to [create_superscript_text],
    with their colours, in the order of the show (lines 171, 193, 234,
    256, 264, 269, 290, 296, 329, 336, 357, 378, 390, 411, 422, 462, 483,
    491, 512, 520, 541, 549, 582, 591, 612 and 619). *)
Definition show_texts : list (PyStr.str * Color) :=
  [(PyStr.lit "Amplitude A = 0.01 m (system boundary)", colors key_text_secondary);
   (PyStr.lit "Harmonic Motion: x(t) = A cos(" ++ [PyStr.omega] ++ PyStr.lit "t)",
    colors key_text_primary);
   (PyStr.lit "System Analysis: Parameters & Requirements", colors key_highlight);
   (PyStr.lit "Spring constant: k = 2" ++ [times] ++ PyStr.lit "10" ++ [PyStr.sup6] ++ PyStr.lit " N/m",
    colors key_text_secondary);
   (PyStr.lit "Amplitude: A = 0.01 m", colors key_text_secondary);
   (PyStr.lit "Total energy: E = 160 J", colors key_text_secondary);
   (PyStr.lit "Find: Maximum Potential Energy", colors key_highlight);
   (PyStr.lit "Using energy conservation principles", colors key_text_primary);
   (PyStr.lit "Energy Conservation Principle", colors key_highlight);
   (PyStr.lit "Energy is neither created nor destroyed", colors key_text_primary);
   (PyStr.lit "E_total = KE + PE = constant", colors key_total_energy);
   (PyStr.lit "PE = " ++ [PyStr.half] ++ PyStr.lit "kx" ++ [PyStr.sup2] ++ PyStr.lit " (potential energy)",
    colors key_potential_energy);
   (PyStr.lit "KE = " ++ [PyStr.half] ++ PyStr.lit "mv" ++ [PyStr.sup2] ++ PyStr.lit " (kinetic energy)",
    colors key_kinetic_energy);
   (PyStr.lit "PE_max at x = " ++ [plus_minus] ++ PyStr.lit "A (amplitude positions)",
    colors key_potential_energy);
   (PyStr.lit "KE_max at x = 0 (equilibrium position)", colors key_kinetic_energy);
   (PyStr.lit "Energy bars: Blue=KE, Red=PE, Green=Total", colors key_text_primary);
   (PyStr.lit "At x = " ++ [plus_minus] ++ PyStr.lit "A: v = 0, so KE = 0",
    colors key_kinetic_energy);
   (PyStr.lit "Therefore: PE_max = E_total = 160 J", colors key_potential_energy);
   (PyStr.lit "PE_max = " ++ [PyStr.half] ++ PyStr.lit "kA" ++ [PyStr.sup2] ++ PyStr.lit " = " ++ [PyStr.half] ++ PyStr.lit "(2" ++ [times] ++ PyStr.lit "10" ++ [PyStr.sup6] ++ PyStr.lit ")(0.01)" ++ [PyStr.sup2],
    colors key_potential_energy);
   (PyStr.lit "PE_max = " ++ [PyStr.half] ++ PyStr.lit "(2" ++ [times] ++ PyStr.lit "10" ++ [PyStr.sup6] ++ PyStr.lit ")(10" ++ [PyStr.supminus; PyStr.sup4] ++ PyStr.lit ") = 100 J",
    colors key_highlight);
   (PyStr.lit "At x = 0: PE = 0, so KE = E_total", colors key_kinetic_energy);
   (PyStr.lit "KE_max = 160 J (at equilibrium)", colors key_kinetic_energy);
   (PyStr.lit "ANSWER: (a) Maximum PE = 100 J", colors key_highlight);
   (PyStr.lit "Energy conservation: PE_max = E_total at amplitude",
    colors key_text_primary);
   (PyStr.lit "Beautiful energy conservation in action!", colors key_total_energy);
   (PyStr.lit "Energy neither created nor destroyed - only transformed",
    colors key_text_primary)].

(** The bodies of the four narration blocks of [scene_3_energy_principles];
    [tracker_duration] is the narration's length. *)













End Show.

(** * Properties *)

(** ** The replacement table of [create_superscript_text] *)

Section StringFacts.

Import PyStr.

Lemma replace_nil o old' new : replace (o :: old') new [] = [].
Proof. now simp replace. Qed.

Lemma replace_cons o old' new c s' :
  replace (o :: old') new (c :: s') =
  if starts_with (o :: old') (c :: s')
  then new ++ replace (o :: old') new (skipn (length old') s')
  else c :: replace (o :: old') new s'.
Proof.
  simp replace.
  destruct (starts_with (o :: old') (c :: s')); reflexivity.
Qed.

Lemma has_pair_skipn a b k s :
  has_pair a b s = false -> has_pair a b (skipn k s) = false.
Proof.
  revert s; induction k as [|k IH]; intros [|x t] H; simpl; auto.
  apply IH. simpl in H. now apply orb_false_iff in H.
Qed.

Lemma contains_pair a b s : contains [a; b] s = has_pair a b s.
Proof.
  induction s as [|x t IH]; simpl; [reflexivity|].
  rewrite IH. f_equal. rewrite (N.eqb_sym a x). f_equal.
  destruct t as [|y t']; simpl; [reflexivity|].
  rewrite (N.eqb_sym b y). now rewrite andb_true_r.
Qed.

(** A replacement by one character [n] can only put [b] at the front
    of the result when [b] was at the front of the input. *)
Lemma head_replace o old' n b s :
  n <> b -> head_is b (replace (o :: old') [n] s) = true -> head_is b s = true.
Proof.
  intros Hn. destruct s as [|c s']; [now rewrite replace_nil|].
  rewrite replace_cons.
  destruct (starts_with (o :: old') (c :: s')); simpl; [|tauto].
  intros H. apply N.eqb_eq in H. contradiction.
Qed.

(** After [replace("ab", "n")] no "ab" is left, when [n] is neither
    [a] nor [b]. *)
Lemma replace_removes_pair a b n s :
  n <> a -> n <> b -> has_pair a b (replace [a; b] [n] s) = false.
Proof.
  intros Ha Hb.
  induction s as [s IH] using (well_founded_induction (well_founded_ltof _ (@length char))).
  destruct s as [|c s']; [now rewrite replace_nil|].
  rewrite replace_cons.
  destruct (starts_with [a; b] (c :: s')) eqn:E.
  - simpl app. simpl has_pair.
    replace (N.eqb n a) with false by (symmetry; now apply N.eqb_neq).
    simpl. apply IH. unfold ltof. simpl. rewrite length_skipn. lia.
  - simpl has_pair. rewrite (IH s') by (unfold ltof; simpl; lia).
    rewrite orb_false_r.
    destruct (N.eqb c a) eqn:Ec; [|reflexivity]. simpl.
    destruct (head_is b (replace [a; b] [n] s')) eqn:Eh; [|reflexivity].
    apply head_replace in Eh; [|assumption].
    destruct s' as [|y t]; [discriminate|].
    simpl in E, Eh. rewrite (N.eqb_sym a c), Ec, (N.eqb_sym b y), Eh in E.
    discriminate.
Qed.

(** A replacement by one character that is neither [a] nor [b] creates
    no "ab". *)
Lemma replace_preserves_no_pair o old' a b n s :
  n <> a -> n <> b ->
  has_pair a b s = false -> has_pair a b (replace (o :: old') [n] s) = false.
Proof.
  intros Ha Hb.
  induction s as [s IH] using (well_founded_induction (well_founded_ltof _ (@length char))).
  intros Hs.
  destruct s as [|c s']; [now rewrite replace_nil|].
  rewrite replace_cons.
  simpl in Hs. apply orb_false_iff in Hs. destruct Hs as [Hfront Hrest].
  destruct (starts_with (o :: old') (c :: s')).
  - simpl app. simpl has_pair.
    replace (N.eqb n a) with false by (symmetry; now apply N.eqb_neq).
    simpl. apply IH.
    + unfold ltof. simpl. rewrite length_skipn. lia.
    + now apply has_pair_skipn.
  - simpl has_pair. rewrite (IH s') by (unfold ltof; simpl; lia || assumption).
    rewrite orb_false_r.
    destruct (N.eqb c a) eqn:Ec; [|reflexivity]. simpl in *.
    destruct (head_is b (replace (o :: old') [n] s')) eqn:Eh; [|reflexivity].
    apply head_replace in Eh; [|assumption]. congruence.
Qed.

(** A pattern occurs only where each of its adjacent pairs occurs. *)
Lemma starts_with_has_pair a b old s :
  starts_with old s = true -> has_pair a b old = true -> has_pair a b s = true.
Proof.
  revert s; induction old as [|x old IH]; intros s Hs Hp; [discriminate|].
  destruct s as [|y t]; [discriminate|].
  simpl in Hs. apply andb_true_iff in Hs. destruct Hs as [Hxy Ht].
  apply N.eqb_eq in Hxy. subst y.
  simpl in Hp |- *. apply orb_true_iff in Hp. apply orb_true_iff.
  destruct Hp as [Hp|Hp]; [left|right; now apply IH].
  apply andb_true_iff in Hp. destruct Hp as [Hx Hh]. rewrite Hx. simpl.
  destruct old as [|z old']; [discriminate|].
  destruct t as [|w t']; [discriminate|].
  simpl in Ht, Hh |- *. apply andb_true_iff in Ht. destruct Ht as [Hzw _].
  apply N.eqb_eq in Hzw. now subst w.
Qed.

(** A pattern that has "ab" inside does not occur in a string without
    "ab", and its replacement leaves the string as it is. *)
Lemma replace_absent a b old new s :
  has_pair a b old = true -> has_pair a b s = false -> replace old new s = s.
Proof.
  intros Hold. destruct old as [|o old']; [discriminate|].
  induction s as [|c s' IH]; intros Hs; [now rewrite replace_nil|].
  rewrite replace_cons.
  destruct (starts_with (o :: old') (c :: s')) eqn:E.
  - rewrite (starts_with_has_pair a b _ _ E Hold) in Hs. discriminate.
  - f_equal. apply IH. simpl in Hs. now apply orb_false_iff in Hs.
Qed.

(** After the first two lines of the table the string has no "^2". *)
Lemma no_caret_two_after_first_lines s :
  has_pair 94%N 50%N (replace (lit "^3") [sup3] (replace (lit "^2") [sup2] s)) = false.
Proof.
  apply replace_preserves_no_pair; [discriminate | discriminate |].
  apply (replace_removes_pair 94%N 50%N); discriminate.
Qed.

Lemma superscript_string_pruned_eq s :
  superscript_string s = superscript_string_pruned s.
Proof.
  unfold superscript_string, superscript_string_pruned.
  pose proof (no_caret_two_after_first_lines s) as H.
  set (s2 := replace (lit "^3") [sup3] (replace (lit "^2") [sup2] s)) in *.
  rewrite (replace_absent 94%N 50%N (lit "v^2") _ s2) by (reflexivity || assumption).
  rewrite (replace_absent 94%N 50%N (lit "x^2") _ s2) by (reflexivity || assumption).
  rewrite (replace_absent 94%N 50%N (lit "A^2") _ s2) by (reflexivity || assumption).
  rewrite (replace_absent 94%N 50%N (lit "w^2") _ s2) by (reflexivity || assumption).
  rewrite (replace_absent 94%N 50%N (lit "omega^2") _ s2) by (reflexivity || assumption).
  reflexivity.
Qed.

(** "w^2" is rendered with a plain w. *)
Example superscript_w_squared :
  superscript_string (lit "w^2") = lit "w" ++ [sup2].
Proof. reflexivity. Qed.

Example superscript_omega_squared :
  superscript_string (lit "1/2 m omega^2 A^2") =
  [half] ++ lit " m " ++ [omega; sup2] ++ lit " A" ++ [sup2].
Proof. reflexivity. Qed.

(** C9: for every input string, [create_superscript_text] builds the same
    text as its variant without the lines for "v^2", "x^2", "A^2", "w^2"
    and "omega^2". Once "^2" and "^3" have been replaced the string has no
    "^2", so each of the five later replacements returns the string it was
    given. *)
Theorem create_superscript_text_redundant_lines
    (text_string : str) (color : Engine.Color) (font_size : Q) (s : Engine.Scene) :
  let s1 := replace (lit "^2") [sup2] text_string in
  let s2 := replace (lit "^3") [sup3] s1 in
  contains (lit "^2") s1 = false /\
  contains (lit "^2") s2 = false /\
  Forall (fun '(old, new) => replace old new s2 = s2)
         [(lit "v^2", lit "v" ++ [sup2]); (lit "x^2", lit "x" ++ [sup2]);
          (lit "A^2", lit "A" ++ [sup2]); (lit "w^2", [omega; sup2]);
          (lit "omega^2", [omega; sup2])] /\
  superscript_string text_string = superscript_string_pruned text_string /\
  Engine.create_superscript_text text_string color font_size s
    = Engine.create_superscript_text_pruned text_string color font_size s.
Proof.
  intros s1 s2.
  assert (H1 : has_pair 94%N 50%N s1 = false)
    by (apply (replace_removes_pair 94%N 50%N); discriminate).
  assert (H2 : has_pair 94%N 50%N s2 = false)
    by apply no_caret_two_after_first_lines.
  split; [exact (eq_trans (contains_pair 94%N 50%N s1) H1)|].
  split; [exact (eq_trans (contains_pair 94%N 50%N s2) H2)|].
  split.
  - repeat constructor; apply (replace_absent 94%N 50%N); (reflexivity || exact H2).
  - split; [apply superscript_string_pruned_eq|].
    unfold Engine.create_superscript_text, Engine.create_superscript_text_pruned.
    rewrite superscript_string_pruned_eq. reflexivity.
Qed.

End StringFacts.

(** ** Narration blocks and the keep-alive padding *)

Section Timing.

Import Engine Observe.
Open Scope Q_scope.

Lemma Qltb_true x y : Qltb x y = true <-> x < y.
Proof.
  unfold Qltb. rewrite Qlt_alt. destruct (x ?= y); intuition discriminate.
Qed.

Lemma Qltb_false x y : Qltb x y = false <-> y <= x.
Proof.
  rewrite <- not_true_iff_false, Qltb_true. split; [apply Qnot_lt_le | apply Qle_not_lt].
Qed.

Lemma play_positive anims run_time s :
  0 < run_time ->
  play anims run_time s =
  Some (tt, tick (Played anims run_time) run_time
              (with_mobjects (foldl (fun l a => add_to_scene (anim_target a) l) (mobjects s) anims)
                 (with_heap (foldl (fun h a => finish a h) (heap s) anims) s))).
Proof.
  intros H. unfold play. apply Qltb_true in H. rewrite H. reflexivity.
Qed.

Lemma new_events_app s s' l :
  trace s' = trace s ++ l -> new_events s s' = l.
Proof. intros H. unfold new_events. rewrite H. apply drop_app_length. Qed.

(** [keep_animation_running] with a positive duration: one tick of
    exactly that duration, then the dummy is removed again. *)
Lemma keep_animation_running_positive duration s :
  0 < duration ->
  exists s',
    keep_animation_running duration s = Some (tt, s') /\
    trace s' = trace s ++
      [Played [AnimateShift (OfObj (next_id s)) (vscale UP 0.001)] duration;
       Removed (OfObj (next_id s))] /\
    clock_advanced_by duration s s' /\
    text_content_stack s' = text_content_stack s /\
    next_id s' = S (next_id s) /\
    (forall e, e <> next_id s -> heap s' !! e = heap s !! e).
Proof.
  intros H. unfold keep_animation_running.
  unfold mbind, M_bind, alloc, move_to, modify at 1. cbn beta iota.
  rewrite play_positive by assumption. cbn beta iota.
  eexists; split; [reflexivity|]. split; [|split; [|split; [|split]]].
  - cbn. rewrite <- app_assoc. reflexivity.
  - unfold clock_advanced_by. cbn. destruct (renderer_time s); cbn; [reflexivity | exact I].
  - reflexivity.
  - reflexivity.
  - intros e He. cbn. rewrite !lookup_alter_ne, lookup_insert_ne by congruence. reflexivity.
Qed.

(** A remaining time that is not positive: the padding does nothing. *)
Lemma keep_alive_padding_skips tracker_duration budget s :
  tracker_duration - budget <= 0 ->
  keep_alive_padding tracker_duration budget s = Some (tt, s).
Proof.
  intros H. unfold keep_alive_padding.
  assert (E : Qltb 0 (Qmax 0 (tracker_duration - budget)) = false).
  { apply Qltb_false. rewrite Q.max_l by assumption. apply Qle_refl. }
  rewrite E. reflexivity.
Qed.

(** A positive remaining time: one keep-alive tick of that duration. *)
Lemma keep_alive_padding_pads tracker_duration budget s :
  0 < tracker_duration - budget ->
  exists s',
    keep_alive_padding tracker_duration budget s = Some (tt, s') /\
    trace s' = trace s ++
      [Played [AnimateShift (OfObj (next_id s)) (vscale UP 0.001)]
              (Qmax 0 (tracker_duration - budget));
       Removed (OfObj (next_id s))] /\
    clock_advanced_by (Qmax 0 (tracker_duration - budget)) s s' /\
    text_content_stack s' = text_content_stack s /\
    next_id s' = S (next_id s) /\
    (forall e, e <> next_id s -> heap s' !! e = heap s !! e).
Proof.
  intros H. unfold keep_alive_padding.
  assert (P : 0 < Qmax 0 (tracker_duration - budget)).
  { rewrite Q.max_r by now apply Qlt_le_weak. assumption. }
  assert (E := P). apply Qltb_true in E. rewrite E.
  now apply keep_animation_running_positive.
Qed.

Lemma veqb_keep_alive_shift : veqb (vscale UP 0.001) (vscale UP 0.001) = true.
Proof. reflexivity. Qed.


Lemma clock_advanced_later dt s s' :
  0 < dt -> clock_advanced_by dt s s' -> clock_later s s'.
Proof.
  unfold clock_advanced_by, clock_later. intros Hdt.
  destruct (renderer_time s), (renderer_time s'); try tauto.
  intros H. rewrite H. lra.
Qed.




(** A narration of 3.0 seconds against the budget 4.0 and a delta of -1.0
    handed to the clock directly. *)
Example negative_delta_example :
  keep_alive_padding 3.0 4.0 (init_scene (Some 0)) = Some (tt, init_scene (Some 0)) /\
  keep_animation_running (-1.0) (init_scene (Some 0)) = None.
Proof. split; reflexivity. Qed.

(** The first block of scene 1 for any positive narration length: the
    actions take [min(3.0, d * 0.5) + 1.0] and the padding
    [max(0, d - 4.0)]. *)
Lemma scene_1_block_1_run d s :
  0 < d ->
  exists s',
    exec (scene_1_block_1 d) s = Some s' /\
    Qsum (action_durations (new_events s s')) == Qmin 3.0 (d * 0.5) + 1.0 /\
    Forall2 Qeq (keep_alive_ticks (new_events s s'))
                (if Qltb 0 (d - 4.0) then [d - 4.0] else []) /\
    elapsed (new_events s s') == Qmin 3.0 (d * 0.5) + 1.0 + Qmax 0 (d - 4.0).
Proof.
  intros Hd.
  assert (Hfirst : 0 < Qmin 3.0 (d * 0.5)).
  { apply Q.min_glb_lt; [reflexivity | lra]. }
  unfold scene_1_block_1, create_spring_mass_system, create_amplitude_markers, exec.
  unfold mbind, M_bind, modify. cbn beta iota.
  rewrite play_positive by assumption. cbn beta iota.
  rewrite play_positive by reflexivity. cbn beta iota.
  match goal with |- context [keep_alive_padding _ _ ?s2] => set (s2' := s2) end.
  assert (Htrace2 : trace s2' = trace s ++
    [Played [Create (OfAttr wall); Create (OfAttr spring); Create (OfAttr mass);
             Create (OfAttr equilibrium_line)] (Qmin 3.0 (d * 0.5));
     Played [Create (OfAttr amplitude_markers)] 1.0]).
  { subst s2'. cbn. rewrite <- app_assoc. reflexivity. }
  destruct (Qltb 0 (d - 4.0)) eqn:E.
  - apply Qltb_true in E.
    destruct (keep_alive_padding_pads d 4.0 s2' E) as (s' & Hrun & Hev & _).
    rewrite Hrun. exists s'. split; [reflexivity|].
    rewrite Htrace2, <- app_assoc in Hev. rewrite (new_events_app _ _ _ Hev).
    cbn [app action_durations keep_alive_ticks omap list_omap is_keep_alive].
    rewrite veqb_keep_alive_shift.
    cbn [Qsum elapsed foldr event_duration].
    rewrite (Q.max_r 0 (d - 4.0)) by lra.
    split; [ring|]. split; [repeat constructor; reflexivity | ring].
  - apply Qltb_false in E.
    rewrite (keep_alive_padding_skips d 4.0 s2' E). exists s2'. split; [reflexivity|].
    rewrite (new_events_app _ _ _ Htrace2).
    cbn [app action_durations keep_alive_ticks omap list_omap is_keep_alive].
    cbn [Qsum elapsed foldr event_duration].
    rewrite (Q.max_l 0 (d - 4.0)) by lra.
    split; [ring|]. split; [constructor | ring].
Qed.

(** So the first block spans the narration exactly when the narration is at
    least 6.0 seconds; for a narration between 2.0 and 6.0 seconds, which
    still covers the actions, the block is shorter than the narration. *)
Lemma scene_1_block_1_fills_long_narration d s :
  6 <= d ->
  exists s', exec (scene_1_block_1 d) s = Some s' /\ elapsed (new_events s s') == d.
Proof.
  intros Hd. destruct (scene_1_block_1_run d s) as (s' & Hrun & _ & _ & He); [lra|].
  exists s'. split; [exact Hrun|]. rewrite He.
  rewrite Q.min_l, Q.max_r by lra. ring.
Qed.

Lemma scene_1_block_1_short_narration d s :
  2 < d -> d < 6 ->
  exists s', exec (scene_1_block_1 d) s = Some s' /\
             Qsum (action_durations (new_events s s')) <= d /\
             elapsed (new_events s s') < d.
Proof.
  intros Hlo Hhi. destruct (scene_1_block_1_run d s) as (s' & Hrun & Ha & _ & He); [lra|].
  exists s'. split; [exact Hrun|]. rewrite Ha, He.
  rewrite Q.min_r by lra.
  destruct (Qlt_le_dec 4.0 d) as [H|H].
  - rewrite Q.max_r by lra. clear - Hlo Hhi H. split; lra.
  - rewrite Q.max_l by lra. clear - Hlo Hhi H. split; lra.
Qed.

(** C1, at narrations of 5.0 seconds. In the first block of scene 1 the
    actions take 2.5 + 1.0 = 3.5, the keep-alive tick is 1.0 and not
    5.0 - 3.5, and the block spans 4.5. In the third block the actions
    take 0.5 + 0.8 = 1.3, the tick is 4.0 and not 5.0 - 1.3, and the block
    spans 5.3. *)
Theorem scene_1_padding_misses_narration :
  (exists s',
     exec (scene_1_block_1 5.0) (init_scene (Some 0)) = Some s' /\
     Qsum (action_durations (trace s')) == 3.5 /\
     Forall2 Qeq (keep_alive_ticks (trace s')) [1.0] /\
     ~ 1.0 == Qmax 0 (5.0 - 3.5) /\
     elapsed (trace s') == 4.5) /\
  (exists s2 s3,
     before_block_3 = Some s2 /\
     exec (scene_1_block_3 5.0) s2 = Some s3 /\
     Qsum (action_durations (new_events s2 s3)) == 1.3 /\
     Forall2 Qeq (keep_alive_ticks (new_events s2 s3)) [4.0] /\
     ~ 4.0 == Qmax 0 (5.0 - 1.3) /\
     elapsed (new_events s2 s3) == 5.3).
Proof.
  split.
  - eexists. split; [vm_compute; reflexivity|].
    split; [reflexivity|]. split; [repeat constructor|].
    split; [discriminate | reflexivity].
  - eexists. eexists. split; [vm_compute; reflexivity|].
    split; [vm_compute; reflexivity|].
    split; [reflexivity|]. split; [repeat constructor|].
    split; [discriminate | reflexivity].
Qed.

(** The second block of scene 1 is the specification's example: actions
    of 0.6 + 0.6 + 0.8 = 2.0 and a narration of 5.0 give a tick of 3.0 and
    a block of 5.0. *)
Example scene_1_block_2_fills_narration :
  exists s1 s2,
    exec (scene_1_block_1 5.0) (init_scene (Some 0)) = Some s1 /\
    exec (scene_1_block_2 5.0) s1 = Some s2 /\
    Qsum (action_durations (new_events s1 s2)) == 2.0 /\
    Forall2 Qeq (keep_alive_ticks (new_events s1 s2)) [3.0] /\
    elapsed (new_events s1 s2) == 5.0.
Proof.
  eexists. eexists. split; [vm_compute; reflexivity|].
  split; [vm_compute; reflexivity|].
  split; [reflexivity|]. split; [repeat constructor|]. reflexivity.
Qed.

End Timing.

(** ** The overlay stack *)

Section Overlay.

Import Engine Observe.
Open Scope Q_scope.

Lemma shift_all_cons e l h :
  shift_all (e :: l) h = shift_all l (alter flowed e h).
Proof. reflexivity. Qed.

Lemma shift_all_lookup_other l h e :
  e ∉ l -> shift_all l h !! e = h !! e.
Proof.
  revert h; induction l as [|x l IH]; intros h He; [reflexivity|].
  apply not_elem_of_cons in He. destruct He as [Hx Hl].
  rewrite shift_all_cons, IH by assumption.
  now apply lookup_alter_ne.
Qed.

Lemma shift_all_lookup_member l h e :
  NoDup l -> e ∈ l -> shift_all l h !! e = flowed <$> h !! e.
Proof.
  revert h; induction l as [|x l IH]; intros h Hnd He; [inversion He|].
  apply NoDup_cons in Hnd. destruct Hnd as [Hx Hnd].
  rewrite shift_all_cons.
  destruct (decide (e = x)) as [->|Hne].
  - rewrite shift_all_lookup_other by assumption. apply lookup_alter_eq.
  - apply elem_of_cons in He. destruct He as [He|He]; [contradiction|].
    rewrite IH by assumption. now rewrite lookup_alter_ne.
Qed.

(** What one call of [add_flowing_text] does, whatever the scene. *)
Lemma add_flowing_text_run text_content s :
  let l := text_content_stack s in
  exists s',
    add_flowing_text text_content s = Some (tt, s') /\
    next_id s' = next_id s /\
    heap s' = shift_all l (alter (set_center text_center_position) text_content (heap s)) /\
    text_content_stack s' = bounded (l ++ [text_content]) /\
    trace s' = trace s ++ post_events l text_content /\
    ((6 <? length (l ++ [text_content]))%nat = true ->
     OfObj (hd text_content l) ∉ mobjects s').
Proof.
  intros l. subst l. unfold add_flowing_text, bounded, post_events.
  destruct s as [t h n l a mo tr]. cbn [text_content_stack].
  unfold mbind, M_bind, move_to, modify, gets, mret, M_ret. cbn beta iota.
  cbn [text_content_stack with_heap with_stack heap next_id].
  destruct l as [|e l'].
  - cbn. eexists. split; [reflexivity|]. cbn.
    repeat split. intros H; discriminate H.
  - change ((0 <? length (e :: l'))%nat) with true. cbn beta iota. cbn [map].
    rewrite play_positive by reflexivity. cbn beta iota.
    cbn [text_content_stack tick with_mobjects with_heap with_stack heap next_id
         renderer_time attrs mobjects trace].
    rewrite play_positive by reflexivity. cbn beta iota.
    cbn [text_content_stack tick with_mobjects with_heap with_stack heap next_id
         renderer_time attrs mobjects trace hd].
    destruct (6 <? length ((e :: l') ++ [text_content]))%nat eqn:E.
    + eexists. split; [reflexivity|].
      cbn [text_content_stack tick with_mobjects with_heap with_stack heap next_id
           renderer_time attrs mobjects trace foldl finish app drop].
      repeat split.
      * rewrite <- !app_assoc. reflexivity.
      * intros _ [H _]%list_elem_of_filter. now apply H.
    + eexists. split; [reflexivity|].
      repeat split.
      * cbn. rewrite <- !app_assoc. reflexivity.
      * intros H; discriminate H.
Qed.

Lemma evictions_app tr1 tr2 :
  evictions (tr1 ++ tr2) = evictions tr1 ++ evictions tr2.
Proof. apply omap_app. Qed.

Lemma evictions_post_events l text_content :
  evictions (post_events l text_content) =
  if (6 <? length (l ++ [text_content]))%nat then [hd text_content l] else [].
Proof.
  unfold post_events, evictions. rewrite !omap_app.
  destruct (6 <? length (l ++ [text_content]))%nat; destruct l; reflexivity.
Qed.

Lemma bounded_length l : (length l <= 7)%nat -> (length (bounded l) <= 6)%nat.
Proof.
  unfold bounded. intros H. destruct (6 <? length l)%nat eqn:E.
  - rewrite length_drop. lia.
  - apply Nat.ltb_ge in E. lia.
Qed.

(** The stack after a run of calls is the last six of all entries, and
    the entries removed are the earlier ones, in the order they came. *)
Lemma add_flowing_texts_run texts :
  forall s, (length (text_content_stack s) <= 6)%nat ->
  let all := text_content_stack s ++ texts in
  exists s' evs,
    exec (add_flowing_texts texts) s = Some s' /\
    trace s' = trace s ++ evs /\
    text_content_stack s' = drop (length all - 6) all /\
    evictions evs = take (length all - 6) all.
Proof.
  induction texts as [|text_content rest IH]; intros s Hlen all; subst all.
  - exists s, []. rewrite !app_nil_r.
    replace (length (text_content_stack s) - 6)%nat with 0%nat by lia.
    repeat split.
  - destruct (add_flowing_text_run text_content s) as (s1 & Hrun & _ & _ & Hstack & Htrace & _).
    assert (Hlen1 : (length (text_content_stack s1) <= 6)%nat).
    { rewrite Hstack. apply bounded_length. rewrite length_app. simpl. lia. }
    destruct (IH s1 Hlen1) as (s' & evs & Hrun' & Htrace' & Hstack' & Hev').
    exists s', (post_events (text_content_stack s) text_content ++ evs).
    split; [|split; [|split]].
    + unfold exec in *. cbn [add_flowing_texts]. unfold mbind, M_bind.
      rewrite Hrun. exact Hrun'.
    + rewrite Htrace', Htrace, app_assoc. reflexivity.
    + rewrite Hstack', Hstack. unfold bounded.
      destruct (6 <? length (text_content_stack s ++ [text_content]))%nat eqn:E.
      * apply Nat.ltb_lt in E.
        replace (text_content_stack s ++ text_content :: rest)
          with ((text_content_stack s ++ [text_content]) ++ rest)
          by (rewrite <- app_assoc; reflexivity).
        set (X := text_content_stack s ++ [text_content]) in *.
        rewrite <- (drop_app_le X rest 1) by lia.
        rewrite drop_drop. f_equal.
        rewrite length_drop, !length_app. lia.
      * rewrite <- app_assoc. reflexivity.
    + rewrite evictions_app, evictions_post_events, Hev', Hstack. unfold bounded.
      destruct (6 <? length (text_content_stack s ++ [text_content]))%nat eqn:E.
      * apply Nat.ltb_lt in E. rewrite length_app in E. simpl in E.
        destruct (text_content_stack s) as [|e l'] eqn:El; [simpl in E; lia|].
        change (drop 1 ((e :: l') ++ [text_content])) with (drop 0 (l' ++ [text_content])).
        cbn [hd app]. rewrite drop_0. cbn [length] in E, Hlen.
        replace (length (e :: l' ++ text_content :: rest) - 6)%nat
          with (S (length ((l' ++ [text_content]) ++ rest) - 6))%nat
          by (cbn [length]; rewrite !length_app; cbn [length]; lia).
        cbn [take]. rewrite <- app_assoc. reflexivity.
      * rewrite <- app_assoc. reflexivity.
Qed.

(** C2: starting from a stack within the bound, after every sequence of
    [add_flowing_text] calls the stack has at most six entries, it holds
    the last six of all entries in the order they were posted, and the
    entries removed are the earlier ones, oldest first. *)
Theorem overlay_stack_bounded_fifo (texts : list nat) (s : Scene)
    (Hbound : (length (text_content_stack s) <= 6)%nat) :
  let all := text_content_stack s ++ texts in
  exists s',
    exec (add_flowing_texts texts) s = Some s' /\
    (length (text_content_stack s') <= 6)%nat /\
    text_content_stack s' = drop (length all - 6) all /\
    evictions (new_events s s') = take (length all - 6) all.
Proof.
  intros all.
  destruct (add_flowing_texts_run texts s Hbound) as (s' & evs & Hrun & Htrace & Hstack & Hev).
  exists s'. split; [exact Hrun|]. split; [|split].
  - rewrite Hstack, length_drop. lia.
  - exact Hstack.
  - rewrite (new_events_app _ _ _ Htrace). exact Hev.
Qed.

(** Eight posts on the empty stack: entries 10 and 11 are evicted, in
    that order, and the last six remain. *)
Lemma overlay_stack_bounded_fifo_witness :
  exists s',
    exec (add_flowing_texts [10; 11; 12; 13; 14; 15; 16; 17]%nat) (init_scene (Some 0)) = Some s' /\
    (length (text_content_stack s') <= 6)%nat /\
    text_content_stack s' = [12; 13; 14; 15; 16; 17]%nat /\
    evictions (new_events (init_scene (Some 0)) s') = [10; 11]%nat.
Proof.
  apply (overlay_stack_bounded_fifo [10; 11; 12; 13; 14; 15; 16; 17]%nat (init_scene (Some 0))).
  simpl. lia.
Defined.






(** *** Positions *)

Lemma Qnat_S k : Qnat (S k) == Qnat k + 1.
Proof. unfold Qnat. rewrite Nat2Z.inj_succ, <- Z.add_1_r, inject_Z_plus. reflexivity. Qed.

Lemma anchor_plus_0 p : veq p text_center_position -> veq p (anchor_plus 0).
Proof.
  destruct p as [[a b] c]. unfold anchor_plus, veq. cbn. intros (Ha & Hb & Hc).
  change (Qnat 0) with 0. repeat split; lra.
Qed.


Lemma flowed_anchor m j :
  veq (center m) (anchor_plus j) -> veq (center (flowed m)) (anchor_plus (S j)).
Proof.
  unfold flowed, anchor_plus. cbn [center set_center].
  destruct (center m) as [[a b] c]. unfold veq. cbn.
  pose proof (Qnat_S j) as HS. intros (Ha & Hb & Hc).
  repeat split; try rewrite HS; lra.
Qed.







(** The calls that only let time pass leave the overlay entries where
    they are: a keep-alive tick touches its own dummy dot alone, and [wait]
    its own placeholder. *)
Lemma keep_animation_running_keeps_overlay duration s :
  0 < duration ->
  (forall e, e ∈ text_content_stack s -> (e < next_id s)%nat) ->
  exists s',
    keep_animation_running duration s = Some (tt, s') /\
    text_content_stack s' = text_content_stack s /\
    forall e, e ∈ text_content_stack s -> heap s' !! e = heap s !! e.
Proof.
  intros Hd Hids.
  destruct (keep_animation_running_positive duration s Hd)
    as (s' & Hrun & _ & _ & Hstack & _ & Hheap).
  exists s'. split; [exact Hrun|]. split; [exact Hstack|].
  intros e He. apply Hheap. specialize (Hids e He). lia.
Qed.

Lemma wait_keeps_overlay duration s :
  0 < duration ->
  exists s',
    wait duration s = Some (tt, s') /\
    text_content_stack s' = text_content_stack s /\
    forall e, (e < next_id s)%nat -> heap s' !! e = heap s !! e.
Proof.
  intros Hd. unfold wait. apply Qltb_true in Hd. rewrite Hd.
  eexists. split; [reflexivity|]. split; [reflexivity|].
  intros e He. cbn. rewrite lookup_insert_ne by lia. reflexivity.
Qed.


End Overlay.

(** ** The physical model *)

Section PhysicalModel.

Import Engine Physics.
Open Scope R_scope.

Lemma baseline_y_value : baseline_y = 0.5.
Proof.
  unfold baseline_y. change (snd (fst DIAGRAM_BASELINE_SHIFT)) with (1 * 0.5)%Q.
  rewrite Q2R_mult. unfold Q2R. simpl. lra.
Qed.

Lemma position_offset_bound t : Rabs (position_offset t) <= amplitude_visual.
Proof.
  unfold position_offset, amplitude_visual.
  pose proof (COS_bound (2 * PI * t / period)) as [Hlo Hhi].
  apply Rabs_le. lra.
Qed.

(** The test of line 808 is never true. *)
Lemma clamp_not_taken t : ~ Rabs (position_offset t) > amplitude_visual.
Proof. pose proof (position_offset_bound t). lra. Qed.

Lemma ke_max_positive : ke_max > 1e-10.
Proof.
  unfold ke_max, amplitude_visual, period. pose proof PI2_1 as H.
  replace (1.0 * 2 * PI / 4.0) with (PI / 2) by lra.
  assert (H2 : 1 * 1 < (PI / 2) * (PI / 2)) by (apply Rmult_le_0_lt_compat; lra).
  simpl. lra.
Qed.

Lemma pe_max_positive : pe_max > 1e-10.
Proof. unfold pe_max, amplitude_visual. simpl. lra. Qed.

Lemma kinetic_fraction_is_sin2 t :
  get_kinetic_energy_fraction_at t = (sin (2 * PI * t / period)) ^ 2.
Proof.
  unfold get_kinetic_energy_fraction_at. fold ke_max.
  destruct (Rgt_dec ke_max 1e-10) as [_|H]; [|destruct (H ke_max_positive)].
  unfold ke_max, amplitude_visual, period. field.
  repeat split; try lra; apply PI_neq0.
Qed.

Lemma potential_fraction_is_cos2 t :
  get_potential_energy_fraction_at t = (cos (2 * PI * t / period)) ^ 2.
Proof.
  unfold get_potential_energy_fraction_at. fold pe_max.
  destruct (Rgt_dec pe_max 1e-10) as [_|H]; [|destruct (H pe_max_positive)].
  unfold pe_max, amplitude_visual. field. lra.
Qed.

Lemma sq_in_unit_interval x : -1 <= x <= 1 -> 0 <= x ^ 2 <= 1.
Proof. intros [Hlo Hhi]. simpl. nra. Qed.

(** C5: at every time the offset [A cos(2 pi t / T)] of the mass is within
    the amplitude in absolute value, by the bound of the cosine alone: the
    test that guards the clamp of [draw_constrained_mass] is never true,
    and the mass is drawn at the equilibrium position plus the unclamped
    offset. *)
Theorem mass_offset_within_amplitude (t : R) :
  Rabs (position_offset t) <= amplitude_visual /\
  ~ Rabs (position_offset t) > amplitude_visual /\
  circle_center (draw_constrained_mass_at t)
    = (equilibrium_x + position_offset t, baseline_y, 0) /\
  Rabs (fst (fst (circle_center (draw_constrained_mass_at t))) - equilibrium_x)
    <= amplitude_visual.
Proof.
  pose proof (position_offset_bound t) as Hb.
  pose proof (clamp_not_taken t) as Hc.
  assert (Hcenter : circle_center (draw_constrained_mass_at t)
                    = (equilibrium_x + position_offset t, baseline_y, 0)).
  { unfold draw_constrained_mass_at. fold (position_offset t).
    destruct (Rgt_dec (Rabs (position_offset t)) amplitude_visual) as [H|_];
      [destruct (Hc H) | reflexivity]. }
  repeat split; try assumption.
  rewrite Hcenter. cbn [fst].
  replace (equilibrium_x + position_offset t - equilibrium_x) with (position_offset t) by ring.
  exact Hb.
Qed.

(** C6: at every time the two energy fractions are the squared sine and the
    squared cosine of the same phase and add up to one; the two bar
    fills together have the full height 2.0 of a bar outline. *)
Theorem energy_fractions_sum_to_one (t : R) :
  get_kinetic_energy_fraction_at t = (sin (2 * PI * t / period)) ^ 2 /\
  get_potential_energy_fraction_at t = (cos (2 * PI * t / period)) ^ 2 /\
  get_kinetic_energy_fraction_at t + get_potential_energy_fraction_at t = 1 /\
  ke_bar_fill_height t + pe_bar_fill_height t = 2.0.
Proof.
  pose proof (kinetic_fraction_is_sin2 t) as Hk.
  pose proof (potential_fraction_is_cos2 t) as Hp.
  assert (Hsum : get_kinetic_energy_fraction_at t + get_potential_energy_fraction_at t = 1).
  { rewrite Hk, Hp. pose proof (sin2_cos2 (2 * PI * t / period)) as H.
    unfold Rsqr in H. simpl. lra. }
  repeat split; try assumption.
  unfold ke_bar_fill_height, pe_bar_fill_height. lra.
Qed.

(** C10: at every time both energy fractions lie in [0, 1]; [ke_max] and
    [pe_max] exceed 1e-10, so each function returns its quotient and never
    the fallback 0.0. *)
Theorem energy_fractions_in_unit_interval (t : R) :
  0 <= get_kinetic_energy_fraction_at t <= 1 /\
  0 <= get_potential_energy_fraction_at t <= 1 /\
  ke_max > 1e-10 /\
  pe_max > 1e-10 /\
  get_kinetic_energy_fraction_at t =
    0.5 * (- amplitude_visual * (2 * PI / period) * sin (2 * PI * t / period)) ^ 2 / ke_max /\
  get_potential_energy_fraction_at t =
    0.5 * (amplitude_visual * cos (2 * PI * t / period)) ^ 2 / pe_max.
Proof.
  split; [|split; [|split; [|split; [|split]]]].
  - rewrite kinetic_fraction_is_sin2. apply sq_in_unit_interval, SIN_bound.
  - rewrite potential_fraction_is_cos2. apply sq_in_unit_interval, COS_bound.
  - exact ke_max_positive.
  - exact pe_max_positive.
  - unfold get_kinetic_energy_fraction_at. fold ke_max.
    destruct (Rgt_dec ke_max 1e-10) as [_|H]; [reflexivity | destruct (H ke_max_positive)].
  - unfold get_potential_energy_fraction_at. fold pe_max.
    destruct (Rgt_dec pe_max 1e-10) as [_|H]; [reflexivity | destruct (H pe_max_positive)].
Qed.

(** C7: the redraw functions of the mass and of the spring return the same
    shape when they are evaluated twice in a row, they leave the scene as
    it was, and two scenes whose clocks read the same time get the same
    shapes from them, whatever else differs between the scenes. *)
Theorem redraw_is_deterministic (s1 s2 : Scene)
    (Htime : renderer_time s1 = renderer_time s2) :
  (c ← draw_constrained_mass; c' ← draw_constrained_mass; mret (c, c')) s1
    = Some ((draw_constrained_mass_at (current_time s1),
             draw_constrained_mass_at (current_time s1)), s1) /\
  (c ← draw_constrained_spring; c' ← draw_constrained_spring; mret (c, c')) s1
    = Some ((draw_constrained_spring_at (current_time s1),
             draw_constrained_spring_at (current_time s1)), s1) /\
  fst <$> draw_constrained_mass s1 = fst <$> draw_constrained_mass s2 /\
  fst <$> draw_constrained_spring s1 = fst <$> draw_constrained_spring s2.
Proof.
  split; [reflexivity|]. split; [reflexivity|].
  unfold draw_constrained_mass, draw_constrained_spring, gets, mbind, M_bind, mret, M_ret.
  cbn [fmap option_fmap option_map fst]. unfold current_time. rewrite Htime.
  split; reflexivity.
Qed.

(** Two scenes that differ in their overlay stacks and read the same clock. *)
Lemma redraw_is_deterministic_witness :
  let s1 := init_scene (Some 1%Q) in
  let s2 := with_stack [3; 4]%nat (init_scene (Some 1%Q)) in
  (c ← draw_constrained_mass; c' ← draw_constrained_mass; mret (c, c')) s1
    = Some ((draw_constrained_mass_at (current_time s1),
             draw_constrained_mass_at (current_time s1)), s1) /\
  (c ← draw_constrained_spring; c' ← draw_constrained_spring; mret (c, c')) s1
    = Some ((draw_constrained_spring_at (current_time s1),
             draw_constrained_spring_at (current_time s1)), s1) /\
  fst <$> draw_constrained_mass s1 = fst <$> draw_constrained_mass s2 /\
  fst <$> draw_constrained_spring s1 = fst <$> draw_constrained_spring s2.
Proof.
  apply (redraw_is_deterministic (init_scene (Some 1%Q))
           (with_stack [3; 4]%nat (init_scene (Some 1%Q)))).
  reflexivity.
Defined.

End PhysicalModel.

(** * Further properties *)

(** ** Python's [str.replace] and the replacement table *)

Section MoreStringFacts.

Import PyStr.

Lemma superscript_string_table s :
  superscript_string s = foldl (fun acc '(old, new) => replace old new acc) s replacement_table.
Proof. reflexivity. Qed.

Lemma str_length_ind (P : str -> Prop) :
  (forall s, (forall t, (length t < length s)%nat -> P t) -> P s) -> forall s, P s.
Proof.
  intros H s. induction s as [s IH] using (well_founded_induction (well_founded_ltof _ (@length char))).
  apply H. intros t Ht. apply IH. exact Ht.
Qed.

Lemma contains_nil_l s : contains [] s = true.
Proof. destruct s; reflexivity. Qed.

Lemma contains_cons_false p c s :
  contains p (c :: s) = false -> starts_with p (c :: s) = false /\ contains p s = false.
Proof. simpl contains. intros H. now apply orb_false_iff in H. Qed.

Lemma contains_skipn p k s : contains p s = false -> contains p (skipn k s) = false.
Proof.
  revert s; induction k as [|k IH]; intros s H; [exact H|].
  destruct s as [|c s']; [exact H|]. simpl. apply IH.
  now apply contains_cons_false in H.
Qed.

Lemma starts_with_length p s : starts_with p s = true -> (length p <= length s)%nat.
Proof.
  revert s; induction p as [|a p IH]; intros s H; simpl; [lia|].
  destruct s as [|b s']; [discriminate|]. simpl in H |- *.
  apply andb_true_iff in H. destruct H as [_ H]. apply IH in H. lia.
Qed.

Lemma replace_not_contained old new s : contains old s = false -> replace old new s = s.
Proof.
  intros Habsent.
  destruct old as [|o old']; [rewrite contains_nil_l in Habsent; discriminate|].
  induction s as [|c s' IH]; [apply replace_nil|].
  apply contains_cons_false in Habsent. destruct Habsent as [Hhead Hrest].
  rewrite replace_cons, Hhead. f_equal. now apply IH.
Qed.

(** X1: a pattern that does not occur in the string is replaced nowhere:
    [s.replace(old, new)] is [s]. *)
Theorem replace_absent_pattern (old new s : str) (Habsent : contains old s = false) :
  replace old new s = s.
Proof.
  destruct old as [|o old']; [rewrite contains_nil_l in Habsent; discriminate|].
  induction s as [|c s' IH]; [apply replace_nil|].
  apply contains_cons_false in Habsent. destruct Habsent as [Hhead Hrest].
  rewrite replace_cons, Hhead. f_equal. now apply IH.
Qed.

Lemma replace_absent_pattern_witness :
  replace (lit "pi") [pi] (lit "Spring constant") = lit "Spring constant".
Proof. apply (replace_absent_pattern (lit "pi") [pi] (lit "Spring constant")). reflexivity. Defined.

(** A replacement whose new text is no longer than the old one never
    lengthens the string. *)
Lemma replace_length_le o old' new s :
  (length new <= length (o :: old'))%nat ->
  (length (replace (o :: old') new s) <= length s)%nat.
Proof.
  intros Hlen. induction s as [s IH] using str_length_ind.
  destruct s as [|c s']; [rewrite replace_nil; simpl; lia|].
  rewrite replace_cons. destruct (starts_with (o :: old') (c :: s')) eqn:E.
  - apply starts_with_length in E. simpl in E, Hlen.
    rewrite length_app.
    assert (H : (length (replace (o :: old') new (skipn (length old') s'))
                 <= length (skipn (length old') s'))%nat).
    { apply IH. simpl. rewrite length_skipn. lia. }
    rewrite length_skipn in H. simpl. lia.
  - simpl. specialize (IH s'). simpl in IH. assert (length s' < S (length s'))%nat by lia.
    specialize (IH H). lia.
Qed.

(** X2: the text that [create_superscript_text] renders is never longer, in
    characters, than the text it was given. *)
Theorem superscript_string_never_longer (s : str) :
  (length (superscript_string s) <= length s)%nat.
Proof.
  rewrite superscript_string_table.
  assert (H : forall table acc,
             Forall (fun '(old, new) => exists o old', old = o :: old' /\
                                         (length new <= length old)%nat) table ->
             (length (foldl (fun acc '(old, new) => replace old new acc) acc table)
              <= length acc)%nat).
  { induction table as [|[old new] table IH]; intros acc Hall; [simpl; lia|].
    apply Forall_cons in Hall. destruct Hall as [(o & old' & -> & Hlen) Hall].
    simpl. etransitivity; [apply IH; exact Hall|]. now apply replace_length_le. }
  apply H. unfold replacement_table.
  repeat (apply Forall_cons; split; [eexists; eexists; split; [reflexivity | simpl; lia]|]).
  apply Forall_nil. exact I.
Qed.

Lemma occurs_in_cons c x s : occurs_in c (x :: s) = N.eqb c x || occurs_in c s.
Proof. reflexivity. Qed.

Lemma disjoint_chars_cons x p q :
  disjoint_chars (x :: p) q = negb (occurs_in x q) && disjoint_chars p q.
Proof. reflexivity. Qed.

(** When no character of [p] occurs in the new text, [p] can only begin
    the result of a replacement if it begins the input. *)
Lemma prefix_of_replace o old' n new' p :
  disjoint_chars p (n :: new') = true ->
  forall s, starts_with p (replace (o :: old') (n :: new') s) = true -> starts_with p s = true.
Proof.
  induction p as [|x p IH]; intros Hd s H; [reflexivity|].
  rewrite disjoint_chars_cons in Hd. apply andb_true_iff in Hd. destruct Hd as [Hx Hd].
  destruct s as [|c s']; [rewrite replace_nil in H; discriminate|].
  rewrite replace_cons in H. destruct (starts_with (o :: old') (c :: s')).
  - simpl in H. apply andb_true_iff in H. destruct H as [H _].
    rewrite occurs_in_cons, H in Hx. discriminate.
  - simpl in H |- *. apply andb_true_iff in H. destruct H as [Hc H].
    rewrite Hc. simpl. now apply IH.
Qed.

(** A text that shares no character with [p] and is put in front of a
    string without [p] gives a string without [p]. *)
Lemma contains_app_disjoint p new r :
  p <> [] -> disjoint_chars p new = true ->
  contains p r = false -> contains p (new ++ r) = false.
Proof.
  intros Hp Hd Hr. destruct p as [|x p]; [contradiction|].
  rewrite disjoint_chars_cons in Hd. apply andb_true_iff in Hd. destruct Hd as [Hx _].
  induction new as [|n new IH]; [exact Hr|].
  rewrite occurs_in_cons in Hx. apply negb_true_iff, orb_false_iff in Hx.
  destruct Hx as [Hxn Hx].
  simpl app. simpl contains. rewrite Hxn. simpl.
  apply IH. now apply negb_true_iff.
Qed.

(** A replacement does not create [p], when its new text is not empty and
    shares no character with [p]. *)
Lemma replace_preserves_absent o old' n new' p s :
  p <> [] -> disjoint_chars p (n :: new') = true ->
  contains p s = false -> contains p (replace (o :: old') (n :: new') s) = false.
Proof.
  intros Hp Hd. induction s as [s IH] using str_length_ind. intros Hs.
  destruct s as [|c s']; [rewrite replace_nil; exact Hs|].
  rewrite replace_cons. apply contains_cons_false in Hs. destruct Hs as [Hhead Hrest].
  destruct (starts_with (o :: old') (c :: s')) eqn:E.
  - apply contains_app_disjoint; [assumption | assumption |].
    apply IH; [simpl; rewrite length_skipn; lia | now apply contains_skipn].
  - assert (Hrec : contains p (replace (o :: old') (n :: new') s') = false)
      by (apply IH; [simpl; lia | assumption]).
    destruct (replace (o :: old') (n :: new') s') as [|y r] eqn:Er.
    + destruct p as [|x [|x' p']]; [contradiction| |].
      * simpl in Hhead |- *. rewrite andb_true_r in Hhead. rewrite Hhead. reflexivity.
      * simpl. rewrite andb_false_r. reflexivity.
    + simpl contains. fold (contains p (y :: r)). 
      replace (starts_with p (c :: y :: r)) with false; [exact Hrec|].
      symmetry. apply not_true_is_false. intros Hst.
      rewrite <- Er in Hst.
      assert (Hst' : starts_with p (replace (o :: old') (n :: new') (c :: s')) = true)
        by (rewrite replace_cons, E; exact Hst).
      apply (prefix_of_replace o old' n new' p Hd) in Hst'. congruence.
Qed.

Lemma replace_removes o old' n new' s :
  disjoint_chars (o :: old') (n :: new') = true ->
  contains (o :: old') (replace (o :: old') (n :: new') s) = false.
Proof.
  intros Hdisjoint.
  induction s as [s IH] using str_length_ind.
  destruct s as [|c s']; [rewrite replace_nil; reflexivity|].
  rewrite replace_cons. destruct (starts_with (o :: old') (c :: s')) eqn:E.
  - apply contains_app_disjoint; [discriminate | assumption |].
    apply IH. simpl. rewrite length_skipn. lia.
  - assert (Hrec : contains (o :: old') (replace (o :: old') (n :: new') s') = false)
      by (apply IH; simpl; lia).
    assert (Hhead : starts_with (o :: old') (c :: replace (o :: old') (n :: new') s') = false).
    { apply not_true_is_false. intros Hst.
      assert (Hst' : starts_with (o :: old') (replace (o :: old') (n :: new') (c :: s')) = true)
        by (rewrite replace_cons, E; exact Hst).
      apply (prefix_of_replace o old' n new' _ Hdisjoint) in Hst'. congruence. }
    simpl contains. simpl in Hhead. rewrite Hhead. exact Hrec.
Qed.

(** X3: after [s.replace(old, new)] the pattern [old] occurs nowhere in the
    result, provided [new] is not empty and shares no character with [old]. *)
Theorem replace_removes_all (old new s : str)
    (Hold : old <> []) (Hnew : new <> []) (Hdisjoint : disjoint_chars old new = true) :
  contains old (replace old new s) = false.
Proof.
  destruct old as [|o old']; [contradiction|].
  destruct new as [|n new']; [contradiction|].
  apply replace_removes. exact Hdisjoint.
Qed.

(** "1/2" in a text with overlapping candidates. *)
Lemma replace_removes_all_witness :
  contains (lit "1/2") (replace (lit "1/2") [half] (lit "11/21/2/2 and 1/2")) = false.
Proof.
  apply (replace_removes_all (lit "1/2") [half] (lit "11/21/2/2 and 1/2"));
    [discriminate | discriminate | reflexivity].
Defined.

Lemma foldl_keeps_free p table :
  p <> [] -> forallb (pass_keeps_free p) table = true ->
  forall acc, contains p acc = false ->
  contains p (foldl (fun acc '(old, new) => replace old new acc) acc table) = false.
Proof.
  intros Hp. induction table as [|[old new] table IH]; intros Hall acc Hacc; [exact Hacc|].
  simpl in Hall. apply andb_true_iff in Hall. destruct Hall as [Hline Hall].
  apply andb_true_iff in Hline. destruct Hline as [Hline Hd].
  apply andb_true_iff in Hline. destruct Hline as [Ho Hn].
  apply negb_true_iff, bool_decide_eq_false in Ho, Hn.
  destruct old as [|o old']; [contradiction|]. destruct new as [|n new']; [contradiction|].
  simpl foldl. apply IH; [exact Hall|]. now apply replace_preserves_absent.
Qed.

Lemma rendered_by_free p table :
  rendered_by p table = true ->
  forall acc, contains p (foldl (fun acc '(old, new) => replace old new acc) acc table) = false.
Proof.
  induction table as [|[old new] table IH]; intros H acc; [discriminate|].
  simpl in H. apply orb_true_iff in H. destruct H as [H|H]; [|simpl foldl; now apply IH].
  apply andb_true_iff in H. destruct H as [H Hrest].
  apply andb_true_iff in H. destruct H as [H Hd].
  apply andb_true_iff in H. destruct H as [H Hn].
  apply andb_true_iff in H. destruct H as [Ho Hp].
  apply bool_decide_eq_true in Ho. subst old.
  apply negb_true_iff, bool_decide_eq_false in Hp, Hn.
  simpl foldl. apply foldl_keeps_free; [assumption | assumption |].
  destruct p as [|o old']; [contradiction|]. destruct new as [|n new']; [contradiction|].
  now apply replace_removes.
Qed.

(** X4: whatever the input, the text that [create_superscript_text] renders
    contains none of "^2", "^3", "omega", "pi", "theta", "1/2" and "sqrt":
    each is replaced by its symbol everywhere, and no later line of the
    table brings it back. *)
Theorem superscript_string_renders_all (s : str) :
  Forall (fun p => contains p (superscript_string s) = false) rendered_patterns.
Proof.
  rewrite superscript_string_table. unfold rendered_patterns.
  repeat (apply Forall_cons; split; [apply rendered_by_free; vm_compute; reflexivity|]).
  apply Forall_nil. exact I.
Qed.

Lemma starts_with_occurs c p s :
  starts_with p s = true -> occurs_in c p = true -> occurs_in c s = true.
Proof.
  revert s; induction p as [|x p IH]; intros s Hs Hc; [discriminate|].
  destruct s as [|y t]; [discriminate|].
  simpl in Hs. apply andb_true_iff in Hs. destruct Hs as [Hxy Ht].
  apply N.eqb_eq in Hxy. subst y.
  rewrite occurs_in_cons in Hc |- *. apply orb_true_iff in Hc. apply orb_true_iff.
  destruct Hc as [Hc|Hc]; [now left | right; now apply IH].
Qed.

Lemma contains_occurs c p s :
  occurs_in c p = true -> occurs_in c s = false -> contains p s = false.
Proof.
  intros Hc. induction s as [|y t IH]; intros Hs.
  - destruct p; [discriminate | reflexivity].
  - simpl contains. rewrite occurs_in_cons in Hs. apply orb_false_iff in Hs.
    destruct Hs as [Hy Ht]. rewrite (IH Ht), orb_false_r.
    apply not_true_is_false. intros Hst.
    pose proof (starts_with_occurs c p (y :: t) Hst Hc) as H.
    rewrite occurs_in_cons, Hy, Ht in H. discriminate.
Qed.

(** X5: a text without the character "^" and without "omega", "pi",
    "theta", "1/2" and "sqrt" is rendered as it is. *)
Theorem superscript_string_plain_text (s : str)
    (Hcaret : occurs_in 94%N s = false)
    (Hwords : Forall (fun p => contains p s = false)
                     [lit "omega"; lit "pi"; lit "theta"; lit "1/2"; lit "sqrt"]) :
  superscript_string s = s.
Proof.
  repeat (apply Forall_cons in Hwords; destruct Hwords as [? Hwords]).
  unfold superscript_string.
  repeat (rewrite (replace_not_contained _ _ s);
          [|first [assumption | apply (contains_occurs 94%N); [reflexivity | assumption]]]).
  reflexivity.
Qed.

(** A text of the show that has none of the patterns. *)
Lemma superscript_string_plain_text_witness :
  superscript_string (lit "Find: Maximum Potential Energy") = lit "Find: Maximum Potential Energy".
Proof.
  apply (superscript_string_plain_text (lit "Find: Maximum Potential Energy")).
  - reflexivity.
  - repeat (apply Forall_cons; split; [reflexivity|]). apply Forall_nil. exact I.
Defined.

End MoreStringFacts.

(** ** The mass, the spring and the energy bars over time *)

Section MorePhysics.

Import Engine Physics.
Open Scope R_scope.

Lemma energy_fractions_sum_one_aux t :
  get_kinetic_energy_fraction_at t + get_potential_energy_fraction_at t = 1.
Proof.
  rewrite kinetic_fraction_is_sin2, potential_fraction_is_cos2.
  pose proof (sin2_cos2 (2 * PI * t / period)) as H. unfold Rsqr in H. simpl. lra.
Qed.

Lemma phase_shift_period t (k : nat) :
  2 * PI * (t + INR k * period) / period = 2 * PI * t / period + 2 * INR k * PI.
Proof. unfold period. field. lra. Qed.

(** X6: the drawn mass and the drawn spring repeat after every whole number
    of periods of 4.0 seconds, and the two energy fractions already after
    half a period. *)
Theorem shapes_are_periodic (t : R) (k : nat) :
  draw_constrained_mass_at (t + INR k * period) = draw_constrained_mass_at t /\
  draw_constrained_spring_at (t + INR k * period) = draw_constrained_spring_at t /\
  get_kinetic_energy_fraction_at (t + period / 2) = get_kinetic_energy_fraction_at t /\
  get_potential_energy_fraction_at (t + period / 2) = get_potential_energy_fraction_at t.
Proof.
  assert (Hcos : cos (2 * PI * (t + INR k * period) / period) = cos (2 * PI * t / period))
    by (rewrite phase_shift_period; apply cos_period).
  split; [|split; [|split]].
  - unfold draw_constrained_mass_at. rewrite Hcos. reflexivity.
  - unfold draw_constrained_spring_at. rewrite Hcos. reflexivity.
  - rewrite !kinetic_fraction_is_sin2.
    replace (2 * PI * (t + period / 2) / period) with (2 * PI * t / period + PI)
      by (unfold period; field; lra).
    rewrite neg_sin. ring.
  - rewrite !potential_fraction_is_cos2.
    replace (2 * PI * (t + period / 2) / period) with (2 * PI * t / period + PI)
      by (unfold period; field; lra).
    rewrite neg_cos. ring.
Qed.

(** X7: the energy bars follow the position of the mass: the potential
    fraction is the squared offset relative to the amplitude and the kinetic
    fraction is its complement, so the kinetic bar is empty exactly when the
    mass is at a distance of one amplitude and full exactly when the
    mass is at the equilibrium position. *)
Theorem energy_follows_position (t : R) :
  get_potential_energy_fraction_at t = (position_offset t / amplitude_visual) ^ 2 /\
  get_kinetic_energy_fraction_at t = 1 - (position_offset t / amplitude_visual) ^ 2 /\
  (get_kinetic_energy_fraction_at t = 0 <-> Rabs (position_offset t) = amplitude_visual) /\
  (get_kinetic_energy_fraction_at t = 1 <-> position_offset t = 0).
Proof.
  assert (Hp : get_potential_energy_fraction_at t = (position_offset t / amplitude_visual) ^ 2).
  { rewrite potential_fraction_is_cos2. unfold position_offset, amplitude_visual. field. lra. }
  assert (Hk : get_kinetic_energy_fraction_at t = 1 - (position_offset t / amplitude_visual) ^ 2).
  { rewrite <- Hp. pose proof (energy_fractions_sum_one_aux t). lra. }
  split; [exact Hp|]. split; [exact Hk|].
  rewrite Hk. unfold amplitude_visual.
  pose proof (position_offset_bound t) as Hb. unfold amplitude_visual in Hb.
  set (x := position_offset t) in *.
  split; split; intros H.
  - unfold Rabs in *. destruct (Rcase_abs x); nra.
  - unfold Rabs in *. destruct (Rcase_abs x); nra.
  - nra.
  - rewrite H. lra.
Qed.

Lemma linspace_length a b n : length (linspace a b n) = n.
Proof.
  destruct n as [|[|n]]; [reflexivity | reflexivity |].
  unfold linspace. rewrite length_map, length_seq. reflexivity.
Qed.

Lemma spring_length_value t : spring_length_at t = 1.65 + position_offset t.
Proof.
  pose proof (position_offset_bound t) as Hb. unfold amplitude_visual in Hb.
  unfold Rabs in Hb.
  assert (Hlo : -1 <= position_offset t) by (destruct (Rcase_abs (position_offset t)); lra).
  cbv beta iota zeta delta [spring_length_at mass_attachment_at wall_attachment rvsub norm].
  match goal with
  | |- sqrt ?e = _ =>
      replace e with ((1.65 + position_offset t) * (1.65 + position_offset t))
        by (unfold equilibrium_x, wall_x; first [ring | nra])
  end.
  apply sqrt_square. lra.
Qed.

Lemma spring_length_range t : 0.65 <= spring_length_at t <= 2.65.
Proof.
  rewrite spring_length_value.
  pose proof (position_offset_bound t) as Hb. unfold amplitude_visual in Hb.
  unfold Rabs in Hb. destruct (Rcase_abs (position_offset t)); lra.
Qed.

Lemma num_coils_range t : (6 <= num_coils_at t <= 10)%Z.
Proof.
  pose proof (spring_length_range t) as [Hlo Hhi].
  unfold num_coils_at, py_int.
  destruct (Rle_dec 0 (8 * spring_length_at t / 2.0)) as [_|Hneg]; [|exfalso; apply Hneg; lra].
  pose proof (base_Int_part (8 * spring_length_at t / 2.0)) as [Hfloor _].
  assert (Hlt : (Int_part (8 * spring_length_at t / 2.0) < 11)%Z) by (apply lt_IZR; lra).
  lia.
Qed.

Lemma draw_constrained_spring_points t :
  draw_constrained_spring_at t =
  Corners (map (spring_point_at t) (linspace 0 1 (Z.to_nat (num_coils_at t * 4))))
          (colors key_spring) 3.
Proof.
  pose proof (num_coils_range t) as Hn.
  change (draw_constrained_spring_at t) with
    (let spring_points :=
       map (spring_point_at t) (linspace 0 1 (Z.to_nat (num_coils_at t * 4))) in
     if (1 <? length spring_points)%nat
     then Corners spring_points (colors key_spring) 3
     else Line wall_attachment (mass_attachment_at t) (colors key_spring) 3).
  cbv zeta. rewrite length_map, linspace_length.
  replace (1 <? Z.to_nat (num_coils_at t * 4))%nat with true; [reflexivity|].
  symmetry. apply Nat.ltb_lt. lia.
Qed.

(** X8: the spring is drawn between 0.65 and 2.65 units long, namely 1.65
    plus the offset of the mass; it has between 6 and 10 coils, 10 when the
    mass is at the right end; and it is always the path through four corner
    points per coil, never the fallback line. *)
Theorem spring_coils (t : R) :
  spring_length_at t = 1.65 + position_offset t /\
  0.65 <= spring_length_at t <= 2.65 /\
  (6 <= num_coils_at t <= 10)%Z /\
  num_coils_at 0 = 10%Z /\
  draw_constrained_spring_at t =
    Corners (map (spring_point_at t) (linspace 0 1 (Z.to_nat (num_coils_at t * 4))))
            (colors key_spring) 3 /\
  length (curve_points (draw_constrained_spring_at t)) = Z.to_nat (num_coils_at t * 4).
Proof.
  split; [apply spring_length_value|]. split; [apply spring_length_range|].
  split; [apply num_coils_range|]. split; [|split].
  - unfold num_coils_at, py_int. rewrite spring_length_value.
    unfold position_offset, amplitude_visual, period.
    replace (2 * PI * 0 / 4.0) with 0 by (field; lra). rewrite cos_0.
    destruct (Rle_dec 0 (8 * (1.65 + 1.0 * 1) / 2.0)) as [_|Hneg]; [|exfalso; apply Hneg; lra].
    rewrite <- (Int_part_spec (8 * (1.65 + 1.0 * 1) / 2.0) 10); [reflexivity|].
    split; lra.
  - apply draw_constrained_spring_points.
  - rewrite draw_constrained_spring_points. cbn [curve_points].
    rewrite length_map, linspace_length. reflexivity.
Qed.

Lemma last_map {A B} (f : A -> B) (l : list A) : last (map f l) = option_map f (last l).
Proof.
  induction l as [|x l IH]; [reflexivity|].
  destruct l as [|y l']; [reflexivity|]. exact IH.
Qed.

Lemma linspace_unit_head n : (2 <= n)%nat -> head (linspace 0 1 n) = Some (0 + INR 0 * ((1 - 0) / INR (n - 1))).
Proof. intros H. destruct n as [|[|n]]; [lia | lia | reflexivity]. Qed.

Lemma linspace_unit_last n :
  (2 <= n)%nat -> last (linspace 0 1 n) = Some (0 + INR (n - 1) * ((1 - 0) / INR (n - 1))).
Proof.
  intros H. destruct n as [|[|n]]; [lia | lia |].
  unfold linspace. rewrite last_map.
  replace (seq 0 (S (S n))) with (seq 0 (S n) ++ [S n]) by (rewrite (seq_S (S n) 0); reflexivity).
  rewrite last_snoc. cbn [option_map]. repeat f_equal; lia.
Qed.

Lemma linspace_unit_range n u :
  (2 <= n)%nat -> In u (linspace 0 1 n) -> 0 <= u <= 1.
Proof.
  intros H Hu. destruct n as [|[|n]]; [lia | lia |].
  unfold linspace in Hu. apply in_map_iff in Hu. destruct Hu as (i & <- & Hi).
  apply in_seq in Hi.
  assert (Hpos : 0 < INR (S (S n) - 1)) by (apply lt_0_INR; lia).
  assert (Hi0 : 0 <= INR i) by apply pos_INR.
  assert (Hi1 : INR i <= INR (S (S n) - 1)) by (apply le_INR; lia).
  set (d := INR (S (S n) - 1)) in *.
  replace (0 + INR i * ((1 - 0) / d)) with (INR i / d) by (field; lra).
  split.
  - apply Rmult_le_pos; [exact Hi0 | left; now apply Rinv_0_lt_compat].
  - apply Rmult_le_reg_r with d; [exact Hpos|].
    replace (INR i / d * d) with (INR i) by (field; lra). lra.
Qed.

Lemma sin_whole_turns (n : Z) : sin (2 * PI * IZR n * 1) = 0.
Proof.
  apply sin_eq_0_1. exists (2 * n)%Z. rewrite mult_IZR. ring.
Qed.

Ltac vec3_ring :=
  match goal with
  | |- (?a, ?b, ?c) = (?x, ?y, ?z) =>
      replace a with x by ring; replace b with y by ring; replace c with z by ring;
      reflexivity
  end.

Lemma spring_point_start t : spring_point_at t 0 = wall_attachment.
Proof.
  unfold spring_point_at.
  replace (2 * PI * IZR (num_coils_at t) * 0) with 0 by ring. rewrite sin_0.
  cbv beta iota zeta delta [wall_attachment mass_attachment_at rvadd rvsub rvscale RUP].
  vec3_ring.
Qed.

Lemma spring_point_end t : spring_point_at t 1 = mass_attachment_at t.
Proof.
  unfold spring_point_at. rewrite sin_whole_turns.
  cbv beta iota zeta delta [wall_attachment mass_attachment_at rvadd rvsub rvscale RUP].
  vec3_ring.
Qed.

Lemma spring_point_envelope t u :
  0 <= u <= 1 ->
  let '(x, y, z) := spring_point_at t u in
  fst (fst wall_attachment) <= x <= fst (fst (mass_attachment_at t)) /\
  Rabs (y - baseline_y) <= 0.1 /\ z = 0.
Proof.
  intros [Hu0 Hu1].
  pose proof (spring_length_range t) as [Hlo _]. rewrite spring_length_value in Hlo.
  pose proof (SIN_bound (2 * PI * IZR (num_coils_at t) * u)) as [Hs0 Hs1].
  cbv beta iota zeta delta
    [spring_point_at wall_attachment mass_attachment_at rvadd rvsub rvscale RUP fst].
  unfold equilibrium_x, wall_x in *.
  set (x := position_offset t) in *.
  set (sn := sin (2 * PI * IZR (num_coils_at t) * u)) in *.
  split; [split; nra|]. split; [|ring].
  apply Rabs_le. split; nra.
Qed.

(** X9: the spring always connects the wall to the mass: its first corner
    is the attachment on the right edge of the wall, its last corner is the
    attachment on the left edge of the mass, and every corner lies between
    the two attachments and within the coil amplitude 0.1 of the axis. *)
Theorem spring_connects_wall_and_mass (t : R) :
  head (curve_points (draw_constrained_spring_at t)) = Some wall_attachment /\
  last (curve_points (draw_constrained_spring_at t)) = Some (mass_attachment_at t) /\
  Forall (fun '(x, y, z) =>
            fst (fst wall_attachment) <= x <= fst (fst (mass_attachment_at t)) /\
            Rabs (y - baseline_y) <= 0.1 /\ z = 0)
         (curve_points (draw_constrained_spring_at t)).
Proof.
  rewrite draw_constrained_spring_points. cbn [curve_points].
  pose proof (num_coils_range t) as Hn.
  assert (H2 : (2 <= Z.to_nat (num_coils_at t * 4))%nat) by lia.
  set (n := Z.to_nat (num_coils_at t * 4)) in *.
  assert (Hd : 0 < INR (n - 1)) by (apply lt_0_INR; lia).
  split; [|split].
  - pose proof (linspace_unit_head n H2) as Hh.
    destruct (linspace 0 1 n) as [|u0 rest]; [discriminate|].
    injection Hh as ->. cbn [map head].
    match goal with
    | |- Some (spring_point_at t ?u) = _ => replace u with 0 by (simpl; field; lra)
    end.
    f_equal. apply spring_point_start.
  - rewrite last_map, (linspace_unit_last n H2). cbn [option_map].
    match goal with
    | |- Some (spring_point_at t ?u) = _ => replace u with 1 by (field; lra)
    end.
    f_equal. apply spring_point_end.
  - apply List.Forall_forall. intros pt Hpt. apply in_map_iff in Hpt.
    destruct Hpt as (u & <- & Hu).
    apply (spring_point_envelope t u). now apply (linspace_unit_range n).
Qed.

Lemma mass_center_value t :
  circle_center (draw_constrained_mass_at t) = (equilibrium_x + position_offset t, baseline_y, 0).
Proof.
  unfold draw_constrained_mass_at. fold (position_offset t).
  destruct (Rgt_dec (Rabs (position_offset t)) amplitude_visual) as [H|_];
    [destruct (clamp_not_taken t H) | reflexivity].
Qed.

(** X10: the centre of the mass is always between the two amplitude
    markers; it is on the right marker at every whole number of periods and
    on the left marker half a period later; and the left edge of the mass
    never reaches the right edge of the wall. *)
Theorem mass_between_markers (t : R) (k : nat) :
  marker_x left_marker <= fst (fst (circle_center (draw_constrained_mass_at t)))
    <= marker_x right_marker /\
  fst (fst wall_attachment)
    < fst (fst (circle_center (draw_constrained_mass_at t))) - radius (draw_constrained_mass_at t) /\
  fst (fst (circle_center (draw_constrained_mass_at (INR k * period)))) = marker_x right_marker /\
  fst (fst (circle_center (draw_constrained_mass_at (period / 2 + INR k * period))))
    = marker_x left_marker.
Proof.
  rewrite !mass_center_value. cbn [fst marker_x left_marker right_marker wall_attachment].
  unfold left_pos_x, right_pos_x.
  pose proof (position_offset_bound t) as Hb. unfold Rabs in Hb.
  assert (Hr : radius (draw_constrained_mass_at t) = 0.2).
  { unfold draw_constrained_mass_at.
    destruct (Rgt_dec _ _); reflexivity. }
  rewrite Hr. unfold amplitude_visual, equilibrium_x, wall_x in *.
  split; [destruct (Rcase_abs (position_offset t)); lra|].
  split; [destruct (Rcase_abs (position_offset t)); lra|].
  split.
  - unfold position_offset, amplitude_visual.
    replace (2 * PI * (INR k * period) / period) with (0 + 2 * INR k * PI)
      by (unfold period; field; lra).
    rewrite cos_period, cos_0. ring.
  - unfold position_offset, amplitude_visual.
    replace (2 * PI * (period / 2 + INR k * period) / period) with (PI + 2 * INR k * PI)
      by (unfold period; field; lra).
    rewrite cos_period, cos_PI. ring.
Qed.

(** *** The energy bars *)

Lemma kinetic_fraction_range t : 0 <= get_kinetic_energy_fraction_at t <= 1.
Proof. rewrite kinetic_fraction_is_sin2. apply sq_in_unit_interval, SIN_bound. Qed.

Lemma potential_fraction_range t : 0 <= get_potential_energy_fraction_at t <= 1.
Proof. rewrite potential_fraction_is_cos2. apply sq_in_unit_interval, COS_bound. Qed.

Lemma bar_fill_edges target h c sw fo :
  let fill := align_to_left target
                (align_to_down target
                   {| rect_center := RORIGIN; rect_width := rect_width target; rect_height := h;
                      rect_color := c; rect_stroke_width := sw; rect_fill_opacity := fo |}) in
  rect_bottom fill = rect_bottom target /\
  rect_left fill = rect_left target /\
  rect_right fill = rect_right target /\
  rect_top fill = rect_bottom target + h.
Proof.
  destruct target as [[[x y] z] w ht ? ? ?].
  cbv [align_to_left align_to_down rect_shift rect_bottom rect_top rect_left rect_right
       rect_center rect_width rect_height rvadd RORIGIN].
  repeat split; field.
Qed.

Lemma ke_bar_outline_edges :
  rect_bottom ke_bar_outline = -3.3 /\ rect_top ke_bar_outline = -1.3 /\
  rect_left ke_bar_outline = -3.8 /\ rect_right ke_bar_outline = -3.2.
Proof.
  cbv [ke_bar_outline rect_move_to rect_shift rect_bottom rect_top rect_left rect_right
       rect_center rect_width rect_height rvadd rvsub rvscale RORIGIN RLEFT RDOWN
       bar_y_position].
  rewrite baseline_y_value. repeat split; lra.
Qed.

Lemma pe_bar_outline_edges :
  rect_bottom pe_bar_outline = -3.3 /\ rect_top pe_bar_outline = -1.3 /\
  rect_left pe_bar_outline = -2.6 /\ rect_right pe_bar_outline = -2.0.
Proof.
  cbv [pe_bar_outline rect_move_to rect_shift rect_bottom rect_top rect_left rect_right
       rect_center rect_width rect_height rvadd rvsub rvscale RORIGIN RLEFT RDOWN
       bar_y_position].
  rewrite baseline_y_value. repeat split; lra.
Qed.

Lemma ke_bar_fill_edges t :
  rect_bottom (ke_bar_fill_at t) = rect_bottom ke_bar_outline /\
  rect_left (ke_bar_fill_at t) = rect_left ke_bar_outline /\
  rect_right (ke_bar_fill_at t) = rect_right ke_bar_outline /\
  rect_top (ke_bar_fill_at t) =
    rect_bottom ke_bar_outline + get_kinetic_energy_fraction_at t * 2.0.
Proof. exact (bar_fill_edges ke_bar_outline _ _ _ _). Qed.

Lemma pe_bar_fill_edges t :
  rect_bottom (pe_bar_fill_at t) = rect_bottom pe_bar_outline /\
  rect_left (pe_bar_fill_at t) = rect_left pe_bar_outline /\
  rect_right (pe_bar_fill_at t) = rect_right pe_bar_outline /\
  rect_top (pe_bar_fill_at t) =
    rect_bottom pe_bar_outline + get_potential_energy_fraction_at t * 2.0.
Proof. exact (bar_fill_edges pe_bar_outline _ _ _ _). Qed.

(** X16: the fills of the energy bars stay inside their outlines. At every
    time each fill stands on the lower edge of its outline, between the
    outline's left and right edges, and its upper edge is nowhere below
    the outline's lower edge and nowhere above its upper edge; the two
    outlines are level with each other and do not overlap. *)
Theorem energy_bar_fills_stay_in_outlines (t : R) :
  (rect_bottom (ke_bar_fill_at t) = rect_bottom ke_bar_outline /\
   rect_left (ke_bar_fill_at t) = rect_left ke_bar_outline /\
   rect_right (ke_bar_fill_at t) = rect_right ke_bar_outline /\
   rect_bottom ke_bar_outline <= rect_top (ke_bar_fill_at t) <= rect_top ke_bar_outline) /\
  (rect_bottom (pe_bar_fill_at t) = rect_bottom pe_bar_outline /\
   rect_left (pe_bar_fill_at t) = rect_left pe_bar_outline /\
   rect_right (pe_bar_fill_at t) = rect_right pe_bar_outline /\
   rect_bottom pe_bar_outline <= rect_top (pe_bar_fill_at t) <= rect_top pe_bar_outline) /\
  rect_bottom ke_bar_outline = rect_bottom pe_bar_outline /\
  rect_top ke_bar_outline = rect_top pe_bar_outline /\
  rect_right ke_bar_outline < rect_left pe_bar_outline.
Proof.
  destruct (ke_bar_fill_edges t) as (Hkb & Hkl & Hkr & Hkt).
  destruct (pe_bar_fill_edges t) as (Hpb & Hpl & Hpr & Hpt).
  destruct ke_bar_outline_edges as (Hk1 & Hk2 & Hk3 & Hk4).
  destruct pe_bar_outline_edges as (Hp1 & Hp2 & Hp3 & Hp4).
  pose proof (kinetic_fraction_range t) as Hk.
  pose proof (potential_fraction_range t) as Hp.
  repeat split; try assumption; lra.
Qed.

(** X17: the fills and the reference line of the total energy. The line
    lies at height -0.3, one unit above the upper edge of the outlines,
    and reaches over both bars from left to right; the upper edges of the
    two fills, measured from the foot of the bars, always add up to the
    height 2.0 of an outline; so at every time both fills end at least one
    unit below the line, and neither ever reaches it. *)
Theorem energy_bar_fills_below_total_line (t : R) :
  line_y total_energy_line = -0.3 /\
  line_y total_energy_line = rect_top ke_bar_outline + 1.0 /\
  fst (line_ends_x total_energy_line) < rect_left ke_bar_outline /\
  rect_right pe_bar_outline < snd (line_ends_x total_energy_line) /\
  (rect_top (ke_bar_fill_at t) - rect_bottom ke_bar_outline) +
    (rect_top (pe_bar_fill_at t) - rect_bottom pe_bar_outline) = 2.0 /\
  rect_top (ke_bar_fill_at t) + 1.0 <= line_y total_energy_line /\
  rect_top (pe_bar_fill_at t) + 1.0 <= line_y total_energy_line.
Proof.
  destruct (ke_bar_fill_edges t) as (_ & _ & _ & Hkt).
  destruct (pe_bar_fill_edges t) as (_ & _ & _ & Hpt).
  destruct ke_bar_outline_edges as (Hk1 & Hk2 & Hk3 & Hk4).
  destruct pe_bar_outline_edges as (Hp1 & Hp2 & Hp3 & Hp4).
  pose proof (kinetic_fraction_range t) as Hk.
  pose proof (potential_fraction_range t) as Hp.
  pose proof (energy_fractions_sum_one_aux t) as Hsum.
  assert (Hline : line_y total_energy_line = -0.3).
  { cbv [line_y total_energy_line rvadd rvscale RLEFT RUP RDOWN bar_y_position].
    rewrite baseline_y_value. lra. }
  assert (Hends : line_ends_x total_energy_line = (-4.2, -1.5)).
  { cbv [line_ends_x total_energy_line rvadd rvscale RLEFT RUP RDOWN bar_y_position].
    f_equal; lra. }
  rewrite Hends. cbn [fst snd].
  repeat split; lra.
Qed.

End MorePhysics.

(** ** Shows: how the scene methods compose *)

Section ShowFacts.

Import Engine Observe Show.
Open Scope Q_scope.




Lemma bind_run {A B} (m : M A) (f : A -> M B) s a s1 :
  m s = Some (a, s1) -> (m ≫= f) s = f a s1.
Proof. intros H. unfold mbind, M_bind. rewrite H. reflexivity. Qed.

(** [add_flowing_text] always returns, and leaves the scene [after_post]. *)
Lemma add_flowing_text_closed_form text_content s :
  add_flowing_text text_content s = Some (tt, after_post text_content s).
Proof.
  unfold add_flowing_text, after_post, bounded, post_events.
  destruct s as [t h n l a mo tr]. cbn [text_content_stack].
  unfold mbind, M_bind, move_to, modify, gets, mret, M_ret. cbn beta iota.
  cbn [text_content_stack with_heap with_stack heap next_id].
  destruct l as [|e l'].
  - cbn. reflexivity.
  - change ((0 <? length (e :: l'))%nat) with true. cbn beta iota. cbn [map].
    rewrite play_positive by reflexivity. cbn beta iota.
    cbn [text_content_stack tick with_mobjects with_heap with_stack heap next_id
         renderer_time attrs mobjects trace].
    rewrite play_positive by reflexivity. cbn beta iota.
    cbn [text_content_stack tick with_mobjects with_heap with_stack heap next_id
         renderer_time attrs mobjects trace hd].
    destruct (6 <? length ((e :: l') ++ [text_content]))%nat eqn:E.
    + cbn [text_content_stack tick with_mobjects with_heap with_stack heap next_id
           renderer_time attrs mobjects trace foldl finish app drop remove modify].
      unfold remove, modify.
      cbn [text_content_stack tick with_mobjects with_heap with_stack heap next_id
           renderer_time attrs mobjects trace foldl finish app drop map].
      rewrite <- ?app_assoc. reflexivity.
    + unfold tick, with_mobjects, with_heap, with_stack.
      cbn [text_content_stack heap next_id renderer_time attrs mobjects trace
           foldl finish app drop map].
      rewrite <- ?app_assoc. reflexivity.
Qed.

(** *** The display list *)

Lemma add_to_scene_present (t : Target) (l : list Target) : t ∈ l -> add_to_scene t l = l.
Proof. intros H. unfold add_to_scene. now rewrite decide_True. Qed.

Lemma add_to_scene_absent (t : Target) (l : list Target) : t ∉ l -> add_to_scene t l = l ++ [t].
Proof. intros H. unfold add_to_scene. now rewrite decide_False. Qed.

Lemma obj_on_display (e : nat) (mo : list Target) : OfObj e ∈ mo <-> e ∈ omap obj_of mo.
Proof.
  rewrite list_elem_of_omap. split.
  - intros H. exists (OfObj e). split; [exact H | reflexivity].
  - intros (t & Ht & Hobj). destruct t as [a|i]; [discriminate|].
    injection Hobj as ->. exact Ht.
Qed.

Lemma flow_adds_nothing (l : list nat) (mo : list Target) :
  (forall e, e ∈ l -> OfObj e ∈ mo) ->
  foldl (fun m a => add_to_scene (anim_target a) m) mo
        (map (fun e => AnimateShift (OfObj e) TEXT_FLOW_SHIFT) l) = mo.
Proof.
  induction l as [|e l IH]; intros H; [reflexivity|].
  cbn [map foldl anim_target]. rewrite add_to_scene_present by (apply H; left).
  apply IH. intros x Hx. apply H. now right.
Qed.

Lemma diagram_play_keeps_objects (anims : list Animation) (mo : list Target) :
  forallb on_attr anims = true ->
  omap obj_of (foldl (fun m a => add_to_scene (anim_target a) m) mo anims) = omap obj_of mo.
Proof.
  revert mo; induction anims as [|a anims IH]; intros mo H; [reflexivity|].
  cbn [forallb] in H. apply andb_true_iff in H. destruct H as [Ha H].
  cbn [foldl]. rewrite IH by exact H.
  unfold on_attr in Ha. destruct (anim_target a) as [x|i]; [|discriminate].
  unfold add_to_scene. destruct (decide (OfAttr x ∈ mo)); [reflexivity|].
  rewrite omap_app. cbn. apply app_nil_r.
Qed.

Lemma diagram_play_keeps_heap anims (h : gmap nat Mobject) :
  forallb on_attr anims = true -> foldl (fun h a => finish a h) h anims = h.
Proof.
  revert h; induction anims as [|a anims IH]; intros h H; [reflexivity|].
  cbn [forallb] in H. apply andb_true_iff in H. destruct H as [Ha H].
  cbn [foldl]. rewrite IH by exact H.
  unfold on_attr in Ha. destruct a as [[x|i]|[x|i] sc|[x|i] v|[x|i] c]; simpl in Ha;
    try discriminate; reflexivity.
Qed.

Lemma filter_all {A} (P : A -> Prop) `{forall x, Decision (P x)} (l : list A) :
  (forall x, x ∈ l -> P x) -> filter P l = l.
Proof.
  induction l as [|x l IH]; intros Hall; [reflexivity|].
  rewrite filter_cons_True by (apply Hall; left).
  f_equal. apply IH. intros y Hy. apply Hall. now right.
Qed.

Lemma filter_drops_new (t : Target) (mo : list Target) :
  t ∉ mo -> filter (fun x => x ≠ t) (add_to_scene t mo) = mo.
Proof.
  intros H. rewrite add_to_scene_absent by exact H.
  rewrite filter_app, filter_all by (intros x Hx ->; contradiction).
  rewrite filter_cons_False by (intros Hne; now apply Hne). rewrite filter_nil.
  apply app_nil_r.
Qed.

Lemma omap_obj_filter (e : nat) (mo : list Target) :
  omap obj_of (filter (fun x => x ≠ OfObj e) mo) = filter (fun i => i ≠ e) (omap obj_of mo).
Proof.
  induction mo as [|t mo IH]; [reflexivity|].
  destruct t as [a|i].
  - rewrite filter_cons_True by discriminate. cbn [omap list_omap obj_of]. exact IH.
  - destruct (decide (i = e)) as [->|Hne].
    + rewrite filter_cons_False by (intros Hne; now apply Hne). cbn [omap list_omap obj_of].
      rewrite filter_cons_False by (intros Hne; now apply Hne). exact IH.
    + rewrite filter_cons_True by congruence. cbn [omap list_omap obj_of].
      rewrite filter_cons_True by exact Hne. f_equal. exact IH.
Qed.

Lemma filter_head_nodup (e : nat) (r : list nat) :
  NoDup (e :: r) -> filter (fun i => i ≠ e) (e :: r) = r.
Proof.
  intros Hnd. apply NoDup_cons in Hnd. destruct Hnd as [He _].
  rewrite filter_cons_False by (intros Hne; now apply Hne).
  apply filter_all. intros x Hx ->. contradiction.
Qed.

(** What [keep_animation_running] leaves on the display list. *)
Lemma keep_animation_running_display duration s :
  0 < duration ->
  exists s',
    keep_animation_running duration s = Some (tt, s') /\
    mobjects s' = filter (fun x => x ≠ OfObj (next_id s))
                         (add_to_scene (OfObj (next_id s)) (mobjects s)) /\
    attrs s' = attrs s.
Proof.
  intros H. unfold keep_animation_running.
  unfold mbind, M_bind, alloc, move_to, modify at 1. cbn beta iota.
  rewrite play_positive by assumption. cbn beta iota.
  eexists; split; [reflexivity|]. split; reflexivity.
Qed.

(** X11: [keep_animation_running] leaves no residue. With a positive
    duration and an unused dummy it returns with the display list, the
    overlay stack, the diagram attributes and every earlier mobject as they
    were. The one call it makes that takes time is a [play] of exactly the
    duration it was given, and the clock has moved forward. *)
Theorem keep_animation_running_leaves_no_residue (duration : Q) (s : Scene)
    (Hpositive : 0 < duration) (Hfresh : OfObj (next_id s) ∉ mobjects s) :
  exists s',
    keep_animation_running duration s = Some (tt, s') /\
    mobjects s' = mobjects s /\
    text_content_stack s' = text_content_stack s /\
    attrs s' = attrs s /\
    (forall e, (e < next_id s)%nat -> heap s' !! e = heap s !! e) /\
    elapsed (new_events s s') == duration /\
    clock_later s s'.
Proof.
  destruct (keep_animation_running_positive duration s Hpositive)
    as (s' & Hrun & Htrace & Hclock & Hstack & _ & Hheap).
  destruct (keep_animation_running_display duration s Hpositive)
    as (s'' & Hrun' & Hmob & Hattrs).
  rewrite Hrun in Hrun'. injection Hrun' as <-.
  exists s'. split; [exact Hrun|]. split; [|split; [|split; [|split; [|split]]]].
  - rewrite Hmob. now apply filter_drops_new.
  - exact Hstack.
  - exact Hattrs.
  - intros e He. apply Hheap. lia.
  - rewrite (new_events_app _ _ _ Htrace). cbn. ring.
  - exact (clock_advanced_later _ _ _ Hpositive Hclock).
Qed.

Lemma keep_animation_running_leaves_no_residue_witness :
  exists s',
    keep_animation_running 2.5 six_posts_scene = Some (tt, s') /\
    mobjects s' = mobjects six_posts_scene /\
    text_content_stack s' = text_content_stack six_posts_scene /\
    attrs s' = attrs six_posts_scene /\
    (forall e, (e < next_id six_posts_scene)%nat -> heap s' !! e = heap six_posts_scene !! e) /\
    elapsed (new_events six_posts_scene s') == 2.5 /\
    clock_later six_posts_scene s'.
Proof.
  apply (keep_animation_running_leaves_no_residue 2.5 six_posts_scene).
  - reflexivity.
  - vm_compute. intros H. repeat (apply elem_of_cons in H; destruct H as [H|H]; [discriminate|]).
    now apply elem_of_nil in H.
Defined.

(** X12: [add_flowing_text] always returns, whatever the scene and the
    text. The run times of the plays it makes add up to 0.8 seconds on an
    empty stack (the fade-in alone) and to 1.3 seconds otherwise (0.5 for
    the upward flow, then the fade-in), and the clock has moved forward. *)
Theorem add_flowing_text_duration (text_content : nat) (s : Scene) :
  exists s',
    add_flowing_text text_content s = Some (tt, s') /\
    elapsed (new_events s s') ==
      match text_content_stack s with [] => 0.8 | _ :: _ => 1.3 end /\
    clock_later s s'.
Proof.
  exists (after_post text_content s). split; [apply add_flowing_text_closed_form|].
  unfold new_events, after_post, clock_later.
  cbn [trace renderer_time]. rewrite drop_app_length. unfold post_events.
  destruct (text_content_stack s) as [|e l];
    destruct (6 <? length (_ ++ [text_content]))%nat; cbn [app elapsed foldr event_duration];
    (split; [ring|]); destruct (renderer_time s); cbn; try exact I; lra.
Qed.

(** *** The invariant of a show *)

Lemma clock_advanced_by_trans a b s s1 s2 :
  clock_advanced_by a s s1 -> clock_advanced_by b s1 s2 -> clock_advanced_by (a + b) s s2.
Proof.
  unfold clock_advanced_by.
  destruct (renderer_time s), (renderer_time s1), (renderer_time s2); try tauto.
  intros H1 H2. rewrite H2, H1. ring.
Qed.

Lemma clock_advanced_by_eq a b s s' :
  a == b -> clock_advanced_by a s s' -> clock_advanced_by b s s'.
Proof.
  unfold clock_advanced_by. intros Hab.
  destruct (renderer_time s), (renderer_time s'); try tauto.
  intros H. rewrite H, Hab. reflexivity.
Qed.

Lemma clock_advanced_by_0 s : clock_advanced_by 0 s s.
Proof. unfold clock_advanced_by. destruct (renderer_time s); [ring | exact I]. Qed.

Lemma filter_ext_in {A} (P Q : A -> Prop) `{forall x, Decision (P x)}
    `{forall x, Decision (Q x)} (l : list A) :
  (forall x, x ∈ l -> P x <-> Q x) -> filter P l = filter Q l.
Proof.
  induction l as [|x l IH]; intros Hext; [reflexivity|].
  assert (IH' : filter P l = filter Q l) by (apply IH; intros y Hy; apply Hext; now right).
  destruct (decide (P x)) as [Hp|Hp].
  - rewrite filter_cons_True by exact Hp.
    rewrite filter_cons_True by (apply Hext; [left | exact Hp]). now f_equal.
  - rewrite filter_cons_False by exact Hp.
    rewrite filter_cons_False by (intros Hq; apply Hp, Hext; [left | exact Hq]). exact IH'.
Qed.

Lemma filter_swap {A} (P Q : A -> Prop) `{forall x, Decision (P x)}
    `{forall x, Decision (Q x)} (l : list A) :
  filter P (filter Q l) = filter Q (filter P l).
Proof.
  induction l as [|x l IH]; [reflexivity|].
  destruct (decide (P x)) as [Hp|Hp], (decide (Q x)) as [Hq|Hq];
    repeat first [rewrite filter_cons_True by assumption
                 |rewrite filter_cons_False by assumption];
    rewrite ?IH; reflexivity.
Qed.

Lemma show_inv_fresh ids posts s :
  show_inv ids posts s -> OfObj (next_id s) ∉ mobjects s.
Proof.
  intros (_ & _ & _ & _ & Hold & _) Hin. specialize (Hold _ Hin). lia.
Qed.

Lemma show_inv_stack_ids ids posts s e :
  show_inv ids posts s -> e ∈ text_content_stack s -> e ∈ ids.
Proof.
  intros (_ & _ & _ & Hstack & _) He. rewrite Hstack in He.
  apply list_elem_of_lookup in He. destruct He as (i & Hi).
  rewrite lookup_drop in Hi. now apply list_elem_of_lookup_2 in Hi.
Qed.

Lemma show_inv_stack_shown ids posts s e :
  show_inv ids posts s -> e ∈ text_content_stack s -> OfObj e ∈ mobjects s.
Proof.
  intros (_ & _ & _ & _ & _ & Hshown & _) He. rewrite <- Hshown in He.
  apply list_elem_of_filter in He. destruct He as [_ He]. now apply obj_on_display.
Qed.

(** A step that leaves the stack, the earlier mobjects and the heap objects
    on display as they were keeps the invariant. *)
Lemma show_inv_frame ids posts s s' :
  show_inv ids posts s ->
  text_content_stack s' = text_content_stack s ->
  (next_id s <= next_id s')%nat ->
  (forall e, (e < next_id s)%nat -> heap s' !! e = heap s !! e) ->
  omap obj_of (mobjects s') = omap obj_of (mobjects s) ->
  show_inv ids posts s'.
Proof.
  intros (Hlen & Hlt & Hnd & Hstack & Hold & Hshown & Hblank & Hpos) Hs Hn Hh Hm.
  assert (Hback : forall e, OfObj e ∈ mobjects s' -> OfObj e ∈ mobjects s).
  { intros e He. apply obj_on_display. rewrite <- Hm. now apply obj_on_display. }
  split; [exact Hlen|].
  split; [|split; [exact Hnd|split; [|split; [|split; [|split]]]]].
  - intros e He. specialize (Hlt e He). lia.
  - rewrite Hs. exact Hstack.
  - intros e He. specialize (Hold e (Hback e He)). lia.
  - rewrite Hm, Hs. exact Hshown.
  - intros e He Hnot. destruct (Hblank e (Hback e He) Hnot) as (m & Hm' & Hshape).
    exists m. split; [|exact Hshape]. rewrite Hh; [exact Hm'|]. exact (Hold e (Hback e He)).
  - intros k e content Hk Hc Hge.
    destruct (Hpos k e content Hk Hc Hge) as (m & Hm' & Hrest).
    exists m. split; [|exact Hrest].
    rewrite Hh; [exact Hm'|]. apply Hlt. now apply list_elem_of_lookup_2 in Hk.
Qed.

Lemma keep_alive_frame duration ids posts s :
  0 < duration -> show_inv ids posts s ->
  exists s',
    keep_animation_running duration s = Some (tt, s') /\
    show_inv ids posts s' /\
    trace s' = trace s ++
      [Played [AnimateShift (OfObj (next_id s)) (vscale UP 0.001)] duration;
       Removed (OfObj (next_id s))] /\
    clock_advanced_by duration s s'.
Proof.
  intros Hd Hinv.
  destruct (keep_animation_running_positive duration s Hd)
    as (s' & Hrun & Htrace & Hclock & Hstack & Hid & Hheap).
  destruct (keep_animation_running_display duration s Hd) as (s'' & Hrun' & Hmob & _).
  rewrite Hrun in Hrun'. injection Hrun' as <-.
  exists s'. split; [exact Hrun|]. split; [|split; assumption].
  apply (show_inv_frame ids posts s); [exact Hinv | exact Hstack | lia | |].
  - intros e He. apply Hheap. lia.
  - rewrite Hmob, filter_drops_new; [reflexivity|]. now apply (show_inv_fresh ids posts).
Qed.

(** A [wait] puts its placeholder on the display list and touches nothing
    else. *)
Lemma wait_frame duration ids posts s :
  0 < duration -> show_inv ids posts s ->
  exists s',
    wait duration s = Some (tt, s') /\
    show_inv ids posts s' /\
    trace s' = trace s ++ [Waited duration] /\
    clock_advanced_by duration s s'.
Proof.
  intros Hd Hinv. pose proof (show_inv_fresh ids posts s Hinv) as Hfresh.
  destruct Hinv as (Hlen & Hlt & Hnd & Hstack & Hold & Hshown & Hblank & Hpos).
  unfold wait. replace (Qltb 0 duration) with true by (symmetry; now apply Qltb_true).
  unfold mbind, M_bind, alloc, modify. cbn beta iota.
  eexists. split; [reflexivity|].
  unfold tick, with_mobjects.
  cbn [renderer_time heap next_id text_content_stack attrs mobjects trace].
  rewrite add_to_scene_absent by exact Hfresh.
  assert (Hn : next_id s ∉ ids) by (intros Hin; specialize (Hlt _ Hin); lia).
  split; [|split; [reflexivity|]].
  - unfold show_inv.
    cbn [renderer_time heap next_id text_content_stack attrs mobjects trace].
    split; [exact Hlen|].
    split; [|split; [exact Hnd|split; [exact Hstack|split; [|split; [|split]]]]].
    + intros e He. specialize (Hlt e He). lia.
    + intros e He. apply elem_of_app in He. destruct He as [He|He].
      * specialize (Hold e He). lia.
      * apply list_elem_of_singleton in He. injection He as ->. lia.
    + rewrite omap_app, filter_app. cbn [omap list_omap obj_of].
      rewrite filter_cons_False by exact Hn. rewrite filter_nil, app_nil_r. exact Hshown.
    + intros e He Hnot. apply elem_of_app in He. destruct He as [He|He].
      * destruct (Hblank e He Hnot) as (m & Hm & Hshape). exists m. split; [|exact Hshape].
        rewrite lookup_insert_ne; [exact Hm|]. specialize (Hold e He). lia.
      * apply list_elem_of_singleton in He. injection He as ->.
        eexists. rewrite lookup_insert_eq. split; reflexivity.
    + intros k e content Hk Hc Hge.
      destruct (Hpos k e content Hk Hc Hge) as (m & Hm & Hrest).
      exists m. split; [|exact Hrest].
      rewrite lookup_insert_ne; [exact Hm|].
      apply list_elem_of_lookup_2 in Hk. specialize (Hlt e Hk). lia.
  - unfold clock_advanced_by. cbn [renderer_time].
    destruct (renderer_time s); cbn; [reflexivity | exact I].
Qed.

Lemma bounded_drop (ids : list nat) (n : nat) :
  bounded (drop (length ids - 6) ids ++ [n]) = drop (length (ids ++ [n]) - 6) (ids ++ [n]).
Proof.
  unfold bounded. rewrite !length_app, length_drop. cbn [length].
  destruct (le_lt_dec 6 (length ids)) as [H|H].
  - replace (6 <? length ids - (length ids - 6) + 1)%nat with true
      by (symmetry; apply Nat.ltb_lt; lia).
    rewrite <- (drop_app_le ids [n] (length ids - 6)) by lia.
    rewrite drop_drop. f_equal. lia.
  - replace (6 <? length ids - (length ids - 6) + 1)%nat with false
      by (symmetry; apply Nat.ltb_ge; lia).
    replace (length ids - 6)%nat with 0%nat by lia.
    replace (length ids + 1 - 6)%nat with 0%nat by lia. reflexivity.
Qed.

Lemma post_inv content ids posts s :
  show_inv ids posts s ->
  exists s',
    post_text content s = Some (tt, s') /\
    show_inv (ids ++ [next_id s]) (posts ++ [content]) s' /\
    trace s' = trace s ++ post_events (text_content_stack s) (next_id s) /\
    clock_advanced_by (match ids with [] => 0.8 | _ :: _ => 1.3 end) s s'.
Proof.
  intros Hinv. pose proof (show_inv_fresh ids posts s Hinv) as Hfresh.
  pose proof (fun e => show_inv_stack_shown ids posts s e Hinv) as Hl_shown.
  destruct Hinv as (Hlen & Hlt & Hnd & Hstack & Hold & Hshown & Hblank & Hpos).
  set (n := next_id s) in *. set (l := text_content_stack s) in *.
  set (text := {| shape := Text (PyStr.superscript_string (fst content)) 24;
                  color := snd content; center := ORIGIN |}).
  set (s0 := {| renderer_time := renderer_time s; heap := <[n := text]> (heap s);
                next_id := S n; text_content_stack := l; attrs := attrs s;
                mobjects := mobjects s; trace := trace s |}).
  assert (Hrun : post_text content s = Some (tt, after_post n s0)).
  { unfold post_text, create_superscript_text, alloc, mbind, M_bind.
    apply add_flowing_text_closed_form. }
  assert (Hn_notin : n ∉ ids) by (intros Hin; specialize (Hlt n Hin); lia).
  assert (Hl_sub : forall e, e ∈ l -> e ∈ ids).
  { intros e He. rewrite Hstack in He. apply list_elem_of_lookup in He.
    destruct He as (i & Hi). rewrite lookup_drop in Hi. now apply list_elem_of_lookup_2 in Hi. }
  assert (Hl_nd : NoDup l).
  { rewrite Hstack. apply (NoDup_app (take (length ids - 6) ids)).
    rewrite take_drop. exact Hnd. }
  assert (Hn_l : n ∉ l) by (intros Hin; apply Hn_notin, Hl_sub, Hin).
  exists (after_post n s0). split; [exact Hrun|]. split; [|split].
  - unfold show_inv, after_post.
    cbn [s0 text_content_stack heap next_id mobjects trace renderer_time attrs].
    split; [rewrite !length_app; cbn; lia|].
    split; [intros e He; apply elem_of_app in He; destruct He as [He|He];
            [specialize (Hlt e He); lia | apply list_elem_of_singleton in He; lia]|].
    split; [apply NoDup_app; split; [exact Hnd | split; [|apply NoDup_singleton]];
            intros e He Hen; apply list_elem_of_singleton in Hen; subst e; contradiction|].
    split; [fold l; rewrite Hstack; apply bounded_drop|].
    fold l. rewrite flow_adds_nothing by exact Hl_shown.
    rewrite add_to_scene_absent by exact Hfresh.
    assert (Hsub : forall e, OfObj e ∈ (if (6 <? length (l ++ [n]))%nat
                                        then filter (fun x => x ≠ OfObj (hd n l))
                                                    (mobjects s ++ [OfObj n])
                                        else mobjects s ++ [OfObj n]) ->
                             OfObj e ∈ mobjects s \/ e = n).
    { intros e He.
      assert (He' : OfObj e ∈ mobjects s ++ [OfObj n]).
      { destruct (6 <? length (l ++ [n]))%nat; [|exact He].
        apply list_elem_of_filter in He. now destruct He. }
      apply elem_of_app in He'. destruct He' as [He'|He']; [now left|].
      apply list_elem_of_singleton in He'. injection He' as ->. now right. }
    split; [|split; [|split]].
    + intros e He. destruct (Hsub e He) as [He'| ->]; [|lia].
      specialize (Hold e He'). lia.
    + assert (Hshown' : filter (fun e => e ∈ ids ++ [n]) (omap obj_of (mobjects s ++ [OfObj n]))
                        = l ++ [n]).
      { rewrite omap_app, filter_app. cbn [omap list_omap obj_of].
        rewrite filter_cons_True by (apply elem_of_app; right; left).
        rewrite filter_nil. f_equal. rewrite <- Hshown.
        apply filter_ext_in. intros x Hx. apply obj_on_display in Hx.
        specialize (Hold x Hx). rewrite elem_of_app, list_elem_of_singleton.
        split; [intros [Hin|Heq]; [exact Hin | lia] | now left]. }
      unfold bounded. destruct (6 <? length (l ++ [n]))%nat eqn:E.
      * rewrite omap_obj_filter, filter_swap, Hshown'.
        destruct l as [|e r]; [discriminate E|]. cbn [hd].
        change (drop 1 ((e :: r) ++ [n])) with (r ++ [n]).
        change ((e :: r) ++ [n]) with (e :: (r ++ [n])).
        apply filter_head_nodup.
        change (e :: (r ++ [n])) with ((e :: r) ++ [n]).
        apply NoDup_app. split; [exact Hl_nd | split; [|apply NoDup_singleton]].
        intros x Hx Hxn. apply list_elem_of_singleton in Hxn. subst x. contradiction.
      * exact Hshown'.
    + intros e He Hnot.
      assert (Hen : e <> n) by (intros ->; apply Hnot, elem_of_app; right; left).
      destruct (Hsub e He) as [He'|Heq]; [|contradiction].
      assert (Hids : e ∉ ids) by (intros Hin; apply Hnot, elem_of_app; now left).
      destruct (Hblank e He' Hids) as (m & Hm & Hshape).
      exists m. split; [|exact Hshape].
      rewrite shift_all_lookup_other by (intros Hin; apply Hids, Hl_sub, Hin).
      rewrite lookup_alter_ne, lookup_insert_ne by congruence. exact Hm.
    + intros k e c Hk Hc Hge. rewrite length_app in Hge |- *. cbn [length] in Hge |- *.
      fold l.
      destruct (decide (k = length ids)) as [->|Hne].
      * rewrite list_lookup_middle in Hk by reflexivity. injection Hk as <-.
        rewrite Hlen, list_lookup_middle in Hc by reflexivity. injection Hc as <-.
        rewrite shift_all_lookup_other by exact Hn_l.
        rewrite lookup_alter_eq, lookup_insert_eq. cbn [fmap option_fmap option_map].
        replace (length ids + 1 - 1 - length ids)%nat with 0%nat by lia.
        eexists. split; [reflexivity|]. split; [reflexivity|]. split; [reflexivity|].
        apply anchor_plus_0. cbn. repeat split; reflexivity.
      * assert (Hk_lt : (k < length ids)%nat).
        { apply lookup_lt_Some in Hk. rewrite length_app in Hk. cbn in Hk. lia. }
        rewrite lookup_app_l in Hk by exact Hk_lt.
        rewrite lookup_app_l in Hc by (rewrite <- Hlen; exact Hk_lt).
        destruct (Hpos k e c Hk Hc) as (m & Hm & Hshape & Hcolor & Hcenter); [lia|].
        assert (He_l : e ∈ l).
        { rewrite Hstack. apply list_elem_of_lookup. exists (k - (length ids - 6))%nat.
          rewrite lookup_drop. rewrite <- Hk. f_equal. lia. }
        assert (He_n : e <> n) by (intros ->; contradiction).
        rewrite shift_all_lookup_member by assumption.
        rewrite lookup_alter_ne, lookup_insert_ne, Hm by congruence.
        cbn [fmap option_fmap option_map].
        exists (flowed m). split; [reflexivity|]. split; [exact Hshape|].
        split; [exact Hcolor|].
        replace (length ids + 1 - 1 - k)%nat with (S (length ids - 1 - k)) by lia.
        now apply flowed_anchor.
  - reflexivity.
  - unfold clock_advanced_by, after_post. cbn [s0 renderer_time text_content_stack].
    fold l.
    assert (Hempty : l = [] <-> ids = []).
    { rewrite Hstack. split; intros H.
      - apply (f_equal length) in H. rewrite length_drop in H. cbn in H.
        destruct ids; [reflexivity | cbn in H; lia].
      - subst ids. reflexivity. }
    destruct l as [|e r], ids as [|i ids'];
      try (exfalso; destruct Hempty as [H1 H2];
           first [discriminate (H1 eq_refl) | discriminate (H2 eq_refl)]);
      destruct (renderer_time s); cbn; try exact I; ring.
Qed.

Lemma elapsed_app (a b : list Event) : elapsed (a ++ b) == elapsed a + elapsed b.
Proof.
  unfold elapsed. induction a as [|e a IH]; cbn [app foldr]; [ring|].
  rewrite IH. ring.
Qed.

Lemma show_inv_posted ids posts s :
  show_inv ids posts s ->
  (text_content_stack s = [] <-> ids = []) /\ (ids = [] <-> posts = []).
Proof.
  intros (Hlen & _ & _ & Hstack & _). split.
  - rewrite Hstack. split; intros H.
    + apply (f_equal length) in H. rewrite length_drop in H. cbn in H.
      destruct ids; [reflexivity | cbn in H; lia].
    + subst ids. reflexivity.
  - split; intros ->; [destruct posts | destruct ids]; try reflexivity; discriminate Hlen.
Qed.

Lemma steps_time_cons posts st rest :
  steps_time (posted posts) (st :: rest) ==
  steps_time (posted posts) [st] + steps_time (posted (posts ++ posts_of [st])) rest.
Proof.
  destruct st; cbn [steps_time posts_of omap list_omap]; rewrite ?app_nil_r; try ring.
  replace (posted (posts ++ [content])) with true by (destruct posts; reflexivity).
  ring.
Qed.

(** One step keeps the invariant and takes the time [steps_time] gives. *)
Lemma run_step_inv st ids posts s :
  step_ok st = true -> show_inv ids posts s ->
  exists s' ids' evs,
    run_step st s = Some (tt, s') /\
    show_inv (ids ++ ids') (posts ++ posts_of [st]) s' /\
    trace s' = trace s ++ evs /\
    elapsed evs == steps_time (posted posts) [st] /\
    clock_advanced_by (steps_time (posted posts) [st]) s s'.
Proof.
  intros Hok Hinv.
  destruct st as [a v|anims run_time|content|duration|tracker_duration budget|duration];
    cbn [run_step step_ok posts_of omap list_omap steps_time] in *.
  - exists (with_attr a v s), [], []. rewrite (app_nil_r ids), (app_nil_r posts).
    split; [reflexivity|]. split; [|split; [symmetry; apply app_nil_r|split; [reflexivity|]]].
    + apply (show_inv_frame ids posts s);
        [exact Hinv | reflexivity | cbn; lia | reflexivity | reflexivity].
    + unfold clock_advanced_by. cbn. destruct (renderer_time s); [ring | exact I].
  - apply andb_true_iff in Hok. destruct Hok as [Hpos Hattr]. apply Qltb_true in Hpos.
    rewrite play_positive by exact Hpos.
    eexists _, [], [Played anims run_time]. rewrite (app_nil_r ids), (app_nil_r posts).
    split; [reflexivity|]. split; [|split; [reflexivity|split; [reflexivity|]]].
    + apply (show_inv_frame ids posts s); [exact Hinv | reflexivity | cbn; lia | |].
      * intros e _. cbn [tick with_mobjects with_heap heap].
        now rewrite diagram_play_keeps_heap.
      * cbn [tick with_mobjects with_heap mobjects].
        now apply diagram_play_keeps_objects.
    + unfold clock_advanced_by. cbn. destruct (renderer_time s); cbn; [ring | exact I].
  - destruct (post_inv content ids posts s Hinv) as (s' & Hrun & Hinv' & Htrace & Hclock).
    destruct (show_inv_posted ids posts s Hinv) as [Hstack Hposts].
    exists s', [next_id s], (post_events (text_content_stack s) (next_id s)).
    split; [exact Hrun|]. split; [exact Hinv'|]. split; [exact Htrace|].
    assert (Hcost : (match ids with [] => 0.8 | _ :: _ => 1.3 end) ==
                    (if posted posts then 1.3 else 0.8) + 0).
    { destruct ids as [|i ids'], posts as [|c posts']; cbn [posted]; try ring;
        exfalso; destruct Hposts as [H1 H2];
        first [discriminate (H1 eq_refl) | discriminate (H2 eq_refl)]. }
    split; [|exact (clock_advanced_by_eq _ _ _ _ Hcost Hclock)].
    rewrite <- Hcost. unfold post_events.
    destruct (text_content_stack s) as [|e l], ids as [|i ids'];
      try (exfalso; destruct Hstack as [H1 H2];
           first [discriminate (H1 eq_refl) | discriminate (H2 eq_refl)]);
      destruct (6 <? length (_ ++ [next_id s]))%nat; cbn [app elapsed foldr event_duration]; ring.
  - apply Qltb_true in Hok.
    destruct (wait_frame _ ids posts s Hok Hinv) as (s' & Hrun & Hinv' & Htrace & Hclock).
    exists s', [], [Waited duration]. rewrite (app_nil_r ids), (app_nil_r posts).
    split; [exact Hrun|]. split; [exact Hinv'|]. split; [exact Htrace|].
    split; [reflexivity|].
    apply (clock_advanced_by_eq duration); [ring | exact Hclock].
  - destruct (Qlt_le_dec 0 (tracker_duration - budget)) as [Hpos|Hneg].
    + assert (P : 0 < Qmax 0 (tracker_duration - budget)).
      { rewrite Q.max_r by now apply Qlt_le_weak. assumption. }
      destruct (keep_alive_frame _ ids posts s P Hinv) as (s' & Hrun & Hinv' & Htrace & Hclock).
      eexists s', [], _. rewrite (app_nil_r ids), (app_nil_r posts).
      split; [|split; [exact Hinv'|split; [exact Htrace|split]]].
      * unfold keep_alive_padding. apply Qltb_true in P. rewrite P. exact Hrun.
      * cbn. ring.
      * apply (clock_advanced_by_eq (Qmax 0 (tracker_duration - budget))); [ring | exact Hclock].
    + exists s, [], []. rewrite (app_nil_r ids), (app_nil_r posts).
      split; [now apply keep_alive_padding_skips|]. split; [exact Hinv|].
      split; [symmetry; apply app_nil_r|].
      assert (Hzero : 0 == Qmax 0 (tracker_duration - budget) + 0)
        by (rewrite Q.max_l by exact Hneg; ring).
      split; [exact Hzero|].
      apply (clock_advanced_by_eq 0); [exact Hzero | apply clock_advanced_by_0].
  - apply Qltb_true in Hok.
    destruct (keep_alive_frame _ ids posts s Hok Hinv) as (s' & Hrun & Hinv' & Htrace & Hclock).
    eexists s', [], _. rewrite (app_nil_r ids), (app_nil_r posts).
    split; [exact Hrun|]. split; [exact Hinv'|]. split; [exact Htrace|].
    split; [cbn; ring|].
    apply (clock_advanced_by_eq duration); [ring | exact Hclock].
Qed.

Lemma posts_of_cons st rest : posts_of (st :: rest) = posts_of [st] ++ posts_of rest.
Proof. unfold posts_of. destruct st; reflexivity. Qed.

(** A sequence of steps keeps the invariant; its time is [steps_time]. *)
Lemma run_steps_inv steps : forall ids posts s,
  forallb step_ok steps = true -> show_inv ids posts s ->
  exists s' ids' evs,
    run_steps steps s = Some (tt, s') /\
    show_inv (ids ++ ids') (posts ++ posts_of steps) s' /\
    trace s' = trace s ++ evs /\
    elapsed evs == steps_time (posted posts) steps /\
    clock_advanced_by (steps_time (posted posts) steps) s s'.
Proof.
  induction steps as [|st rest IH]; intros ids posts s Hok Hinv.
  - exists s, [], []. unfold posts_of. cbn [omap list_omap steps_time].
    rewrite (app_nil_r ids), (app_nil_r posts).
    split; [reflexivity|]. split; [exact Hinv|]. split; [symmetry; apply app_nil_r|].
    split; [reflexivity | apply clock_advanced_by_0].
  - cbn [forallb] in Hok. apply andb_true_iff in Hok. destruct Hok as [Hst Hrest].
    destruct (run_step_inv st ids posts s Hst Hinv)
      as (s1 & ids1 & evs1 & Hrun1 & Hinv1 & Htr1 & Hel1 & Hck1).
    destruct (IH _ _ s1 Hrest Hinv1) as (s2 & ids2 & evs2 & Hrun2 & Hinv2 & Htr2 & Hel2 & Hck2).
    exists s2, (ids1 ++ ids2), (evs1 ++ evs2).
    split; [cbn [run_steps]; rewrite (bind_run _ _ _ _ _ Hrun1); exact Hrun2|].
    split; [rewrite posts_of_cons, !app_assoc; exact Hinv2|].
    split; [rewrite Htr2, Htr1, app_assoc; reflexivity|].
    split.
    + rewrite elapsed_app, Hel1, Hel2. symmetry. apply steps_time_cons.
    + apply (clock_advanced_by_eq _ _ _ _ (Qeq_sym _ _ (steps_time_cons posts st rest))).
      exact (clock_advanced_by_trans _ _ _ _ _ Hck1 Hck2).
Qed.

Lemma show_inv_init t : show_inv [] [] (init_scene t).
Proof.
  split; [reflexivity|]. split; [intros e He; now apply elem_of_nil in He|].
  split; [apply NoDup_nil_2|]. split; [reflexivity|].
  split; [intros e He; now apply elem_of_nil in He|]. split; [reflexivity|].
  split; [intros e He; now apply elem_of_nil in He|].
  intros k e content Hk. discriminate Hk.
Qed.

Lemma steps_time_nonneg steps : forall p,
  forallb step_ok steps = true -> 0 <= steps_time p steps.
Proof.
  induction steps as [|st rest IH]; intros p Hok; [apply Qle_refl|].
  cbn [forallb] in Hok. apply andb_true_iff in Hok. destruct Hok as [Hst Hrest].
  destruct st as [a v|anims run_time|content|duration|tracker_duration budget|duration];
    cbn [steps_time step_ok] in *.
  - now apply IH.
  - apply andb_true_iff in Hst. destruct Hst as [Hpos _]. apply Qltb_true in Hpos.
    specialize (IH p Hrest). lra.
  - specialize (IH true Hrest). destruct p; lra.
  - apply Qltb_true in Hst. specialize (IH p Hrest). lra.
  - specialize (IH p Hrest).
    pose proof (Q.le_max_l 0 (tracker_duration - budget)). lra.
  - apply Qltb_true in Hst. specialize (IH p Hrest). lra.
Qed.

(** X13: the overlay through a whole show. Whatever sequence of attribute
    assignments, plays on the diagram, waits, paddings, keep-alive ticks and
    posts a scene method runs from the initial scene, it returns; every
    post got an object of its own; the stack holds the objects of the last
    six posts, in the order of posting; and the text of each of them still
    has the rendering and the colour it was posted with and sits as many
    shifts above the anchor as posts came after it, however many
    keep-alive ticks and diagram plays came in between. *)
Theorem show_overlay_by_age (steps : list Step) (t : option Q)
    (Hok : forallb step_ok steps = true) :
  exists s' ids,
    run_steps steps (init_scene t) = Some (tt, s') /\
    length ids = length (posts_of steps) /\
    NoDup ids /\
    text_content_stack s' = drop (length ids - 6) ids /\
    forall k e content,
      ids !! k = Some e -> posts_of steps !! k = Some content ->
      (length ids - 6 <= k)%nat ->
      exists m,
        heap s' !! e = Some m /\
        shape m = Text (PyStr.superscript_string (fst content)) 24 /\
        color m = snd content /\
        veq (center m) (anchor_plus (length ids - 1 - k)).
Proof.
  destruct (run_steps_inv steps [] [] (init_scene t) Hok (show_inv_init t))
    as (s' & ids & evs & Hrun & Hinv & _).
  cbn [app] in Hinv. destruct Hinv as (Hlen & _ & Hnd & Hstack & _ & _ & _ & Hpos).
  exists s', ids. repeat split; assumption.
Qed.

Lemma show_overlay_by_age_witness :
  exists s' ids,
    run_steps example_show (init_scene (Some 0)) = Some (tt, s') /\
    length ids = length (posts_of example_show) /\
    NoDup ids /\
    text_content_stack s' = drop (length ids - 6) ids /\
    forall k e content,
      ids !! k = Some e -> posts_of example_show !! k = Some content ->
      (length ids - 6 <= k)%nat ->
      exists m,
        heap s' !! e = Some m /\
        shape m = Text (PyStr.superscript_string (fst content)) 24 /\
        color m = snd content /\
        veq (center m) (anchor_plus (length ids - 1 - k)).
Proof. apply (show_overlay_by_age example_show (Some 0)). reflexivity. Defined.

Lemma show_inv_texts_on_display ids posts s :
  show_inv ids posts s -> texts_on_display s = text_content_stack s.
Proof.
  intros (Hlen & Hlt & Hnd & Hstack & Hold & Hshown & Hblank & Hpos).
  unfold texts_on_display. rewrite <- Hshown. apply filter_ext_in.
  intros e He. apply obj_on_display in He. unfold is_text.
  destruct (decide (e ∈ ids)) as [Hin|Hnot].
  - split; [intros _; exact Hin | intros _].
    assert (Hst : e ∈ text_content_stack s).
    { rewrite <- Hshown. apply list_elem_of_filter. split; [exact Hin|].
      now apply obj_on_display. }
    rewrite Hstack in Hst. apply list_elem_of_lookup in Hst. destruct Hst as (i & Hi).
    rewrite lookup_drop in Hi.
    assert (Hc : is_Some (posts !! (length ids - 6 + i)%nat)).
    { apply lookup_lt_is_Some. rewrite <- Hlen. now apply lookup_lt_Some in Hi. }
    destruct Hc as (content & Hc).
    destruct (Hpos _ _ _ Hi Hc) as (m & Hm & Hshape & _); [lia|].
    rewrite Hm, Hshape. reflexivity.
  - split; [|intros Hin; contradiction].
    destruct (Hblank e He Hnot) as (m & Hm & Hshape). rewrite Hm, Hshape. discriminate.
Qed.

(** X14: the display list through a whole show. After any such sequence of
    steps the texts on the display list are exactly the entries of the
    overlay stack, in its order and each once; there are as many as texts
    were posted, and never more than six; each is a text of font size 24;
    and every other heap object on display is the bare placeholder that a
    [wait] has left there: no dummy of [keep_animation_running] and no
    evicted text stays on display. *)
Theorem show_displays_only_the_stack (steps : list Step) (t : option Q)
    (Hok : forallb step_ok steps = true) :
  exists s',
    run_steps steps (init_scene t) = Some (tt, s') /\
    texts_on_display s' = text_content_stack s' /\
    NoDup (text_content_stack s') /\
    length (text_content_stack s') = Nat.min 6 (length (posts_of steps)) /\
    (forall e, e ∈ text_content_stack s' ->
       exists m text, heap s' !! e = Some m /\ shape m = Text text 24) /\
    (forall e, OfObj e ∈ mobjects s' -> e ∉ text_content_stack s' ->
       exists m, heap s' !! e = Some m /\ shape m = Blank).
Proof.
  destruct (run_steps_inv steps [] [] (init_scene t) Hok (show_inv_init t))
    as (s' & ids & evs & Hrun & Hinv & _).
  cbn [app] in Hinv. pose proof (show_inv_texts_on_display _ _ _ Hinv) as Htexts.
  destruct Hinv as (Hlen & _ & Hnd & Hstack & _ & Hshown & Hblank & Hpos).
  exists s'. split; [exact Hrun|]. split; [exact Htexts|]. split; [|split; [|split]].
  - rewrite Hstack. apply (NoDup_app (take (length ids - 6) ids)).
    rewrite take_drop. exact Hnd.
  - rewrite Hstack, length_drop, <- Hlen. lia.
  - intros e He. rewrite Hstack in He.
    apply list_elem_of_lookup in He. destruct He as (i & Hi).
    rewrite lookup_drop in Hi.
    assert (Hlt : (length ids - 6 + i < length (posts_of steps))%nat)
      by (rewrite <- Hlen; now apply lookup_lt_Some in Hi).
    apply lookup_lt_is_Some in Hlt. destruct Hlt as (content & Hc).
    destruct (Hpos _ _ _ Hi Hc) as (m & Hm & Hshape & _); [lia|].
    exists m, (PyStr.superscript_string (fst content)). split; assumption.
  - intros e He Hnot. apply Hblank; [exact He|].
    intros Hin. apply Hnot. rewrite <- Hshown. apply list_elem_of_filter.
    split; [exact Hin | now apply obj_on_display].
Qed.

Lemma show_displays_only_the_stack_witness :
  exists s',
    run_steps example_show (init_scene (Some 0)) = Some (tt, s') /\
    texts_on_display s' = text_content_stack s' /\
    NoDup (text_content_stack s') /\
    length (text_content_stack s') = Nat.min 6 (length (posts_of example_show)) /\
    (forall e, e ∈ text_content_stack s' ->
       exists m text, heap s' !! e = Some m /\ shape m = Text text 24) /\
    (forall e, OfObj e ∈ mobjects s' -> e ∉ text_content_stack s' ->
       exists m, heap s' !! e = Some m /\ shape m = Blank).
Proof. apply (show_displays_only_the_stack example_show (Some 0)). reflexivity. Defined.

Lemma clock_advanced_not_earlier dt s s' :
  0 <= dt -> clock_advanced_by dt s s' -> clock_not_earlier s s'.
Proof.
  unfold clock_advanced_by, clock_not_earlier. intros Hdt.
  destruct (renderer_time s), (renderer_time s'); try tauto.
  intros H. rewrite H. lra.
Qed.

(** X15: the time of a show. The run times and durations that such a
    sequence of steps hands to the framework add up to the sum of its
    steps: a play or a wait its duration, the first post 0.8 seconds and
    every later one 1.3, a padding the clamped remaining time, an
    assignment nothing. That sum is never negative, and the clock never
    reads less at the end than at the start. *)
Theorem show_time (steps : list Step) (t : option Q)
    (Hok : forallb step_ok steps = true) :
  exists s',
    run_steps steps (init_scene t) = Some (tt, s') /\
    elapsed (trace s') == steps_time false steps /\
    0 <= steps_time false steps /\
    clock_not_earlier (init_scene t) s'.
Proof.
  destruct (run_steps_inv steps [] [] (init_scene t) Hok (show_inv_init t))
    as (s' & ids & evs & Hrun & _ & Htrace & Hel & Hclock).
  pose proof (steps_time_nonneg steps false Hok) as Hnonneg.
  exists s'. split; [exact Hrun|]. split; [|split; [exact Hnonneg|]].
  - rewrite Htrace. exact Hel.
  - exact (clock_advanced_not_earlier _ _ _ Hnonneg Hclock).
Qed.

Lemma show_time_witness :
  exists s',
    run_steps example_show (init_scene (Some 0)) = Some (tt, s') /\
    elapsed (trace s') == steps_time false example_show /\
    0 <= steps_time false example_show /\
    clock_not_earlier (init_scene (Some 0)) s'.
Proof. apply (show_time example_show (Some 0)). reflexivity. Defined.

(** *** The scenes *)

























(** X20: the texts of the show are rendered as they are written. None of
    the twenty-six texts that the scene methods hand to
    [create_superscript_text] has a pattern of the replacement table, so
    each is displayed unchanged. *)
Theorem show_texts_rendered_verbatim :
  Forall (fun content => PyStr.superscript_string (fst content) = fst content) show_texts.
Proof.
  unfold show_texts.
  repeat (apply Forall_cons; split;
          [cbn [fst]; unfold PyStr.superscript_string;
           repeat (rewrite replace_not_contained by reflexivity); reflexivity|]).
  apply Forall_nil. exact I.
Qed.

End ShowFacts.
